(** * mustaine: the Hessian 1.0.2 deserialiser ([mustaine/parser.py])

    A shallow embedding of [Parser] and the properties of its decoding
    functions.  Python 2 byte strings ([str]) are Rocq [string]s (sequences of
    8-bit characters); [unicode] objects are lists of code points; the parser
    state ([self._stream], [self._result]) is threaded explicitly through a
    state-and-exception monad. *)

From Stdlib Require Import String Ascii List ZArith NArith Bool Lia.
Import ListNotations.

Local Open Scope string_scope.

Set Warnings "-register-all".

(** ** Exceptions *)

(** The messages of [ParseError], one constructor per [raise ParseError(...)]
    site of the parser. *)
Inductive parse_error : Type :=
| DuplicateEnvelopeHeader   (* 'Encountered duplicate type header' *)
| UnsupportedVersion        (* 'Encountered unrecognized call/reply version' *)
| InvalidMarker             (* 'Invalid Hessian message marker' *)
| IllegalMethodOutsideCall  (* 'Encountered illegal method name within reply' *)
| DuplicateMethodName       (* 'Encountered duplicate method name definition' *)
| IllegalFaultOutsideReply  (* 'Encountered illegal fault within call' *)
| IllegalExtraValue         (* 'Encountered illegal extra object within reply' *)
| UnexpectedEndOfStream     (* 'Encountered unexpected end of stream' *)
| ExpectedTerminalChunk     (* 'Expected terminal string segment' *)
| ExpectedString            (* 'Expected string object while parsing Remote object URL' *)
| UnknownMarker.            (* 'Unknown type marker' *)

(** Every exception class that can leave the parser: its own [ParseError] and
    the built-in exceptions raised by the Python operations it uses. *)
Inductive exn : Type :=
| ParseError (e : parse_error)
| StructError            (* struct.error: unpack on a buffer of the wrong size *)
| TypeError
| NotImplementedError
| UnicodeDecodeError
| UnicodeEncodeError
| ValueError.

Definition is_ParseError (e : exn) : bool :=
  match e with ParseError _ => true | _ => false end.

(** ** The state-and-exception monad *)

(** The unread remainder of the in-memory stream ([StringIO]). *)
Definition stream := string.

Inductive result (A : Type) : Type :=
| Ok (a : A)
| Raise (e : exn)
| OutOfFuel.

Arguments Ok {A} a.
Arguments Raise {A} e.
Arguments OutOfFuel {A}.

Definition M (A : Type) : Type := stream -> result (A * stream).

Definition ret {A} (a : A) : M A := fun s => Ok (a, s).

Definition raise {A} (e : exn) : M A := fun _ => Raise e.

Definition out_of_fuel {A} : M A := fun _ => OutOfFuel.

Definition bind {A B} (m : M A) (k : A -> M B) : M B :=
  fun s =>
    match m s with
    | Ok (a, s') => k a s'
    | Raise e => Raise e
    | OutOfFuel => OutOfFuel
    end.

Notation "x <- m ;; k" := (bind m (fun x => k))
  (at level 61, m at next level, right associativity).
Notation "' pat <- m ;; k" := (bind m (fun x => match x with pat => k end))
  (at level 61, pat pattern, m at next level, right associativity).

(** ** Byte strings *)

Fixpoint take (n : nat) (s : string) : string :=
  match n, s with
  | S n', String c s' => String c (take n' s')
  | _, _ => EmptyString
  end.

Fixpoint drop (n : nat) (s : string) : string :=
  match n, s with
  | S n', String _ s' => drop n' s'
  | _, _ => s
  end.

(** A byte string given by the numeric values of its bytes. *)
Fixpoint bytes (l : list N) : string :=
  match l with
  | [] => EmptyString
  | b :: l' => String (ascii_of_N b) (bytes l')
  end.

Fixpoint ords (s : string) : list N :=
  match s with
  | EmptyString => []
  | String c s' => N_of_ascii c :: ords s'
  end.

(** [ord(byte)]: defined on strings of length one only. *)
Definition ord (byte : string) : M N :=
  match byte with
  | String c EmptyString => ret (N_of_ascii c)
  | _ => raise TypeError
  end.

Definition lower_char (c : ascii) : ascii :=
  let n := N_of_ascii c in
  if ((65 <=? n) && (n <=? 90))%N then ascii_of_N (n + 32) else c.

(** [str.lower()] in the C locale. *)
Fixpoint lower (s : string) : string :=
  match s with
  | EmptyString => EmptyString
  | String c s' => String (lower_char c) (lower s')
  end.

(** [x in range(lo, hi)]: the upper bound is excluded. *)
Definition in_range (x lo hi : N) : bool := ((lo <=? x) && (x <? hi))%N.

(** ** [struct.unpack] *)

Fixpoint be_uint (acc : N) (s : string) : N :=
  match s with
  | EmptyString => acc
  | String c s' => be_uint (acc * 256 + N_of_ascii c) s'
  end.

Definition to_signed (bits : N) (u : N) : Z :=
  if (u <? 2 ^ (bits - 1))%N then Z.of_N u else (Z.of_N u - 2 ^ Z.of_N bits)%Z.

(** [unpack(fmt, r)[0]] raises [struct.error] unless [r] has the size of the
    format. *)
Definition unpack_H (r : string) : M N :=          (* '>H' *)
  if (String.length r =? 2)%nat then ret (be_uint 0 r) else raise StructError.

Definition unpack_l (r : string) : M Z :=          (* '>l' *)
  if (String.length r =? 4)%nat then ret (to_signed 32 (be_uint 0 r)) else raise StructError.

Definition unpack_q (r : string) : M Z :=          (* '>q' *)
  if (String.length r =? 8)%nat then ret (to_signed 64 (be_uint 0 r)) else raise StructError.

(** '>d': the float is kept as its 64 IEEE-754 bits. *)
Definition unpack_d (r : string) : M N :=
  if (String.length r =? 8)%nat then ret (be_uint 0 r) else raise StructError.

(** ** The [utf-8] codec of Python 2 ([str.decode('utf-8')], strict) *)

Definition is_cont (b : N) : bool := in_range b 128 192.

Fixpoint utf8_decode (l : list N) : option (list N) :=
  match l with
  | [] => Some []
  | b0 :: t =>
      if (b0 <? 128)%N then option_map (cons b0) (utf8_decode t)
      else if in_range b0 194 224 then
        match t with
        | b1 :: t1 =>
            if is_cont b1
            then option_map (cons ((b0 - 192) * 64 + (b1 - 128))%N) (utf8_decode t1)
            else None
        | _ => None
        end
      else if in_range b0 224 240 then
        match t with
        | b1 :: b2 :: t2 =>
            if is_cont b1 && is_cont b2 && negb ((b0 =? 224)%N && (b1 <? 160)%N)
            then option_map
                   (cons ((b0 - 224) * 4096 + (b1 - 128) * 64 + (b2 - 128))%N)
                   (utf8_decode t2)
            else None
        | _ => None
        end
      else if in_range b0 240 245 then
        match t with
        | b1 :: b2 :: b3 :: t3 =>
            if is_cont b1 && is_cont b2 && is_cont b3
               && negb ((b0 =? 240)%N && (b1 <? 144)%N)
               && negb ((b0 =? 244)%N && (143 <? b1)%N)
            then option_map
                   (cons ((b0 - 240) * 262144 + (b1 - 128) * 4096
                          + (b2 - 128) * 64 + (b3 - 128))%N)
                   (utf8_decode t3)
            else None
        | _ => None
        end
      else None
  end.

(** ** Decoded values *)

(** The objects [_read_object] can return.  The classes [Binary], [Remote],
    [Magic] and [Fault] come from [mustaine.protocol], which is not part of
    the parser; they are modelled from the spec, as plain data carriers that
    are true in a condition and hashable by identity.  A [dict] is kept as
    the sequence of its item assignments, oldest first (Python keeps the last
    value assigned under equal keys); the keys of a [Magic] object stand for
    [str(key)], the keys of a [Fault] for its attribute names. *)
Inductive value : Type :=
| VNone
| VBool (b : bool)
| VInt (i : Z)
| VLong (i : Z)
| VFloat (bits : N)
| VDate (secs : Z)                    (* datetime.fromtimestamp(secs) *)
| VUnicode (cps : list N)
| VBinary (data : string)
| VRemote (type : option string) (url : value)
| VList (members : list value)
| VTuple (members : list value)
| VDict (fields : list (value * value))
| VMagic (cast : string) (fields : list (value * value))
| VFault (attrs : list (value * value)).

(** Truth value of an object in a condition ([if x:]). *)
Definition truthy (v : value) : bool :=
  match v with
  | VNone => false
  | VBool b => b
  | VInt i | VLong i => negb (i =? 0)%Z
  | VFloat bits => negb ((bits =? 0)%N || (bits =? 2 ^ 63)%N)
  | VUnicode cps => negb (length cps =? 0)%nat
  | VList l | VTuple l => negb (length l =? 0)%nat
  | VDict f => negb (length f =? 0)%nat
  | VDate _ | VBinary _ | VRemote _ _ | VMagic _ _ | VFault _ => true
  end.

Definition truthy_str (s : string) : bool := negb (String.length s =? 0)%nat.

(** Whether [hash(v)] succeeds: lists and dicts are unhashable, a tuple is
    hashable when its members are. *)
Fixpoint hashable (v : value) : bool :=
  match v with
  | VList _ | VDict _ => false
  | VTuple l => forallb hashable l
  | _ => true
  end.

(** [d[key] = value] *)
Definition dict_set (d : list (value * value)) (key v : value)
  : M (list (value * value)) :=
  if hashable key then ret (d ++ [(key, v)])%list else raise TypeError.

Definition is_ascii (cps : list N) : bool := forallb (fun c => (c <? 128)%N) cps.

(** [str(key)]: a [unicode] object is encoded with the default (ascii) codec. *)
Definition py_str (key : value) : M value :=
  match key with
  | VUnicode cps => if is_ascii cps then ret key else raise UnicodeEncodeError
  | _ => ret key
  end.

(** [setattr(f, key, value)]: the attribute name must be a string. *)
Definition py_setattr (attrs : list (value * value)) (key v : value)
  : M (list (value * value)) :=
  match key with
  | VUnicode cps =>
      if is_ascii cps then ret (attrs ++ [(key, v)])%list else raise UnicodeEncodeError
  | _ => raise TypeError
  end.

(** [a + b] where [a] is a [unicode] object. *)
Definition py_add (a b : value) : M value :=
  match a, b with
  | VUnicode x, VUnicode y => ret (VUnicode (x ++ y)%list)
  | _, _ => raise TypeError
  end.

(** [datetime.datetime.fromtimestamp(t)] for an integer [t]; years outside
    1..9999 raise [ValueError] (bounds taken in UTC). *)
Definition fromtimestamp (t : Z) : M value :=
  if ((-62135596800 <=? t) && (t <=? 253402300799))%Z
  then ret (VDate t) else raise ValueError.

(** The instant a [datetime] denotes, in milliseconds since the epoch. *)
Definition instant_ms (v : value) : option Z :=
  match v with
  | VDate secs => Some (secs * 1000)%Z
  | _ => None
  end.

(** ** The envelopes of [mustaine.protocol] *)

(** Modelled from the spec: [mustaine.protocol] is not part of the parser.  A
    [Call] carries headers, an optional method name and a list of arguments; a
    [Reply] carries headers and a value.  Both are plain objects, true in a
    condition; a fresh [Call] has no method and no arguments, a fresh [Reply]
    has the value [None]. *)

Inductive envelope : Type :=
| Call (headers : list (value * value)) (method : option string) (args : list value)
| Reply (headers : list (value * value)) (value : value).

Definition new_Call : envelope := Call [] None [].
Definition new_Reply : envelope := Reply [] VNone.

(** ** [Parser] *)

(** [self._stream.read(n)] on a [StringIO]: at most [n] bytes, fewer at the
    end of the buffer. *)
Definition stream_read (n : nat) : M string :=
  fun s => Ok (take n s, drop n s).

(** [_read]: a [StringIO] never raises [IOError], so only the test on the
    length of the result can fail. *)
Definition _read (n : nat) : M string :=
  r <- stream_read n ;;
  if (String.length r =? 0)%nat
  then raise (ParseError UnexpectedEndOfStream)
  else ret r.

Definition _read_date : M value :=
  r <- _read 8 ;;
  timestamp <- unpack_q r ;;
  fromtimestamp (timestamp / 1000)%Z.

(** The [while len > 0] loop of [_read_string]. *)
Fixpoint string_loop (len : nat) (bytes : list string) : M (list string) :=
  match len with
  | O => ret bytes
  | S len' =>
      byte <- _read 1 ;;
      o <- ord byte ;;
      bytes' <-
        (if in_range o 0 127 then ret (bytes ++ [byte])%list
         else if in_range o 194 223 then
                c <- _read 1 ;; ret (bytes ++ [(byte ++ c)%string])%list
         else if in_range o 224 239 then
                c <- _read 2 ;; ret (bytes ++ [(byte ++ c)%string])%list
         else if in_range o 240 244 then
                c <- _read 3 ;; ret (bytes ++ [(byte ++ c)%string])%list
         else ret bytes) ;;
      string_loop len' bytes'
  end.

Definition decode_utf8 (run : string) : M value :=
  match utf8_decode (ords run) with
  | Some cps => ret (VUnicode cps)
  | None => raise UnicodeDecodeError
  end.

Definition _read_string : M value :=
  r <- _read 2 ;;
  len <- unpack_H r ;;
  bytes <- string_loop (N.to_nat len) [] ;;
  decode_utf8 (String.concat EmptyString bytes).

Definition _read_binary : M value :=
  r <- _read 2 ;;
  len <- unpack_H r ;;
  data <- _read (N.to_nat len) ;;
  ret (VBinary data).

(** [_read_keyval], over the value decoder it calls. *)
Definition _read_keyval_with (read_object : string -> M value)
    (first : option string) : M (value * value) :=
  code <- match first with
          | Some c => if truthy_str c then ret c else _read 1
          | None => _read 1
          end ;;
  key <- read_object code ;;
  code' <- _read 1 ;;
  v <- read_object code' ;;
  ret (key, v).

Definition _read_remote_with (read_object : string -> M value) : M value :=
  code <- _read 1 ;;
  '(type, code) <-
    (if code =? "t" then
       r <- _read 2 ;;
       n <- unpack_H r ;;
       t <- _read (N.to_nat n) ;;
       code <- _read 1 ;;
       ret (Some t, code)
     else ret (None, code)) ;;
  if negb (code =? "s") && negb (code =? "S")
  then raise (ParseError ExpectedString)
  else
    url <- read_object code ;;
    ret (VRemote type url).

Definition _read_list_with
    (loop : string -> list value -> M (list value)) : M value :=
  code <- _read 1 ;;
  code <-
    (if code =? "t" then
       r <- _read 2 ;;
       n <- unpack_H r ;;
       _ <- _read (N.to_nat n) ;;
       _read 1
     else ret code) ;;
  '(code, cast) <-
    (if code =? "l" then
       _ <- _read 4 ;;
       code <- _read 1 ;;
       ret (code, VTuple)
     else ret (code, VList)) ;;
  members <- loop code [] ;;
  ret (cast members).

Definition _read_map_with
    (loop : option string -> string -> list (value * value)
            -> M (list (value * value))) : M value :=
  code <- _read 1 ;;
  '(cast, code) <-
    (if code =? "t" then
       r <- _read 2 ;;
       n <- unpack_H r ;;
       cast <- _read (N.to_nat n) ;;
       code <- _read 1 ;;
       ret (Some cast, code)
     else ret (None, code)) ;;
  fields <- loop cast code [] ;;
  match cast with
  | Some c => if truthy_str c then ret (VMagic c fields) else ret (VDict fields)
  | None => ret (VDict fields)
  end.

(** [if cast: fields[str(key)] = value  else: fields[key] = value].  The
    string [str(key)] is always hashable. *)
Definition map_store (cast : option string) (fields : list (value * value))
    (key v : value) : M (list (value * value)) :=
  let typed := match cast with Some c => truthy_str c | None => false end in
  if typed then k <- py_str key ;; ret (fields ++ [(k, v)])%list
  else dict_set fields key v.

Fixpoint _read_object (fuel : nat) (code : string) {struct fuel} : M value :=
  match fuel with
  | O => out_of_fuel
  | S fuel' =>
      if code =? "N" then ret VNone
      else if code =? "T" then ret (VBool true)
      else if code =? "F" then ret (VBool false)
      else if code =? "I" then
        r <- _read 4 ;; i <- unpack_l r ;; ret (VInt i)
      else if code =? "L" then
        r <- _read 8 ;; i <- unpack_q r ;; ret (VLong i)
      else if code =? "D" then
        r <- _read 8 ;; d <- unpack_d r ;; ret (VFloat d)
      else if code =? "d" then _read_date
      else if (code =? "s") || (code =? "x") then
        fragment <- _read_string ;;
        next <- _read 1 ;;
        if lower next =? code then
          rest <- _read_object fuel' next ;;
          py_add fragment rest
        else raise (ParseError ExpectedTerminalChunk)
      else if (code =? "S") || (code =? "X") then _read_string
      else if code =? "b" then
        fragment <- _read_binary ;;
        next <- _read 1 ;;
        if lower next =? code then
          (* [self._read_binary(next)]: one argument too many *)
          raise TypeError
        else ret VNone
      else if code =? "B" then _read_binary
      else if code =? "r" then _read_remote_with (_read_object fuel')
      else if code =? "R" then raise NotImplementedError
      else if code =? "V" then _read_list_with (list_loop fuel')
      else if code =? "M" then _read_map_with (map_loop fuel')
      else raise (ParseError UnknownMarker)
  end

(** The [while code != 'z'] loop of [_read_list]. *)
with list_loop (fuel : nat) (code : string) (members : list value)
    {struct fuel} : M (list value) :=
  match fuel with
  | O => out_of_fuel
  | S fuel' =>
      if negb (code =? "z") then
        v <- _read_object fuel' code ;;
        code' <- _read 1 ;;
        list_loop fuel' code' (members ++ [v])%list
      else ret members
  end

(** The [while code != 'z'] loop of [_read_map]. *)
with map_loop (fuel : nat) (cast : option string) (code : string)
    (fields : list (value * value)) {struct fuel} : M (list (value * value)) :=
  match fuel with
  | O => out_of_fuel
  | S fuel' =>
      if negb (code =? "z") then
        '(key, v) <- _read_keyval_with (_read_object fuel') (Some code) ;;
        fields' <- map_store cast fields key v ;;
        code' <- _read 1 ;;
        map_loop fuel' cast code' fields'
      else ret fields
  end.

Definition _read_keyval (fuel : nat) (first : option string) : M (value * value) :=
  _read_keyval_with (_read_object fuel) first.

Definition _read_remote (fuel : nat) : M value :=
  _read_remote_with (_read_object fuel).

Definition _read_list (fuel : nat) : M value :=
  _read_list_with (list_loop fuel).

Definition _read_map (fuel : nat) : M value :=
  _read_map_with (map_loop fuel).

Definition _read_fault (fuel : nat) : M value :=
  '(k1, v1) <- _read_keyval fuel None ;;
  a1 <- py_setattr [] k1 v1 ;;
  '(k2, v2) <- _read_keyval fuel None ;;
  a2 <- py_setattr a1 k2 v2 ;;
  '(k3, v3) <- _read_keyval fuel None ;;
  a3 <- py_setattr a2 k3 v3 ;;
  ret (VFault a3).

(** ** [parse_stream] *)

Definition version_1_0 : string := bytes [1; 0]%N.

Inductive flow : Type :=
| Continue (result : option envelope)
| Break.

Definition is_set (result : option envelope) : bool :=
  match result with Some _ => true | None => false end.

Definition truthy_method (m : option string) : bool :=
  match m with Some s => truthy_str s | None => false end.

(** One iteration of the [while True] loop of [parse_stream]; [result] is
    [self._result], which is [None] until a header has been read. *)
Definition loop_body (fuel : nat) (result : option envelope) : M flow :=
  code <- _read 1 ;;
  if code =? "c" then
    if is_set result then raise (ParseError DuplicateEnvelopeHeader)
    else
      version <- _read 2 ;;
      if negb (version =? version_1_0) then raise (ParseError UnsupportedVersion)
      else ret (Continue (Some new_Call))
  else if code =? "r" then
    if is_set result then raise (ParseError DuplicateEnvelopeHeader)
    else
      version <- _read 2 ;;
      if negb (version =? version_1_0) then raise (ParseError UnsupportedVersion)
      else ret (Continue (Some new_Reply))
  else
    match result with
    | None => raise (ParseError InvalidMarker)
    | Some env =>
        if code =? "H" then
          '(key, v) <- _read_keyval fuel None ;;
          match env with
          | Call hs m args =>
              hs' <- dict_set hs key v ;; ret (Continue (Some (Call hs' m args)))
          | Reply hs val =>
              hs' <- dict_set hs key v ;; ret (Continue (Some (Reply hs' val)))
          end
        else if code =? "m" then
          match env with
          | Reply _ _ => raise (ParseError IllegalMethodOutsideCall)
          | Call hs m args =>
              if truthy_method m then raise (ParseError DuplicateMethodName)
              else
                r <- _read 2 ;;
                n <- unpack_H r ;;
                name <- _read (N.to_nat n) ;;
                ret (Continue (Some (Call hs (Some name) args)))
          end
        else if code =? "f" then
          match env with
          | Call _ _ _ => raise (ParseError IllegalFaultOutsideReply)
          | Reply hs val =>
              if truthy val then raise (ParseError IllegalExtraValue)
              else
                f <- _read_fault fuel ;;
                ret (Continue (Some (Reply hs f)))
          end
        else if code =? "z" then ret Break
        else
          match env with
          | Call hs m args =>
              v <- _read_object fuel code ;;
              ret (Continue (Some (Call hs m (args ++ [v])%list)))
          | Reply hs val =>
              if truthy val then raise (ParseError IllegalExtraValue)
              else
                v <- _read_object fuel code ;;
                ret (Continue (Some (Reply hs v)))
          end
    end.

Fixpoint parse_loop (fuel : nat) (result : option envelope) {struct fuel}
  : M (option envelope) :=
  match fuel with
  | O => out_of_fuel
  | S fuel' =>
      fl <- loop_body fuel' result ;;
      match fl with
      | Break => ret result
      | Continue result' => parse_loop fuel' result'
      end
  end.

(** Every loop iteration and every nested value consumes at least one byte,
    so twice the length of the input (plus one) bounds the recursion. *)
Definition parse_stream (s : stream) : result (option envelope * stream) :=
  parse_loop (2 * String.length s + 1) None s.

(** [parse_string] on a [str] argument. *)
Definition parse_string (s : string) : result (option envelope) :=
  match parse_stream s with
  | Ok (r, _) => Ok r
  | Raise e => Raise e
  | OutOfFuel => OutOfFuel
  end.

(** ** Semantic relations used in the statements *)

(** [m] refines to [m']: wherever [m] has enough fuel, [m'] agrees with it. *)
Definition le_fuel {A} (m m' : M A) : Prop :=
  forall s, m s <> OutOfFuel -> m' s = m s.

(** [triple P m s Q]: run on [s], the computation [m] returns in a state
    satisfying [Q] or raises; it runs out of fuel only if [P] fails. *)
Definition triple {A} (P : Prop) (m : M A) (s : stream)
    (Q : A -> stream -> Prop) : Prop :=
  match m s with
  | Ok (a, s') => Q a s'
  | Raise _ => True
  | OutOfFuel => ~ P
  end.

(** The value decoder returns [v] and leaves [s'] when started on [s] with the
    tag [code] already read. *)
Definition decodes (code : string) (s : stream) (v : value) (s' : stream) : Prop :=
  exists fuel, _read_object fuel code s = Ok (v, s').

(** [members s vs s']: starting at a tag byte, the stream [s] holds the values
    [vs], one after the other, then the terminator 'z', then [s']. *)
Inductive members : stream -> list value -> stream -> Prop :=
| members_end : forall s, members (String "z" s) [] s
| members_next : forall c s v s1 vs s2,
    c <> "z"%char ->
    decodes (String c EmptyString) s v s1 ->
    members s1 vs s2 ->
    members (String c s) (v :: vs) s2.

(** The bytes of an optional type name in front of a list: nothing, or 't',
    a two-byte length and a name of that (non-zero) length. *)
Definition type_prefix (pre : string) : Prop :=
  pre = EmptyString \/
  exists hi lo name,
    pre = "t" ++ String hi (String lo name) /\
    String.length name = N.to_nat (N_of_ascii hi * 256 + N_of_ascii lo) /\
    name <> EmptyString.

(** [iterations r s r' s']: some number of iterations of the loop of
    [parse_stream], none of which fails or breaks, lead from the envelope [r]
    and the stream [s] to [r'] and [s']. *)
Inductive iterations : option envelope -> stream -> option envelope -> stream -> Prop :=
| iterations_none : forall r s, iterations r s r s
| iterations_more : forall fuel r s r1 s1 r2 s2,
    loop_body fuel r s = Ok (Continue r1, s1) ->
    iterations r1 s1 r2 s2 ->
    iterations r s r2 s2.

(** Computations that never touch the stream and use no fuel. *)
Definition pure {A} (m : M A) : Prop :=
  forall s, match m s with
            | Ok (_, s') => s' = s
            | Raise _ => True
            | OutOfFuel => False
            end.

Definition zero2 : string := bytes [0; 0]%N.

(** The ways a declared length of zero can reach [parse_stream]: a binary
    value, a method name, and the type name of a list, a map or a remote
    (a remote inside a list: at the top level 'r' is the reply header). *)
Definition zero_length_messages : list string :=
  [ "c" ++ version_1_0 ++ "B" ++ zero2;
    "r" ++ version_1_0 ++ "B" ++ zero2;
    "c" ++ version_1_0 ++ "m" ++ zero2;
    "c" ++ version_1_0 ++ "Vt" ++ zero2;
    "r" ++ version_1_0 ++ "Vt" ++ zero2;
    "c" ++ version_1_0 ++ "Mt" ++ zero2;
    "r" ++ version_1_0 ++ "Mt" ++ zero2;
    "c" ++ version_1_0 ++ "Vrt" ++ zero2;
    "r" ++ version_1_0 ++ "Vrt" ++ zero2 ].

(** The envelope is a call whose method name is a non-empty string. *)
Definition method_set (r : option envelope) : Prop :=
  exists hs name args, r = Some (Call hs (Some name) args) /\ name <> EmptyString.

(** [suffix s' s]: the stream [s'] is what is left of [s] after some of its
    bytes have been read. *)
Definition suffix (s' s : stream) : Prop := exists p, s = p ++ s'.

(** The tags that stand for a value at the top level of a message: every
    byte but the headers 'c' and 'r' and the tags 'H', 'm', 'f' and 'z' of
    the loop of [parse_stream]. *)
Definition value_tag (c : ascii) : Prop :=
  c <> "c"%char /\ c <> "r"%char /\ c <> "H"%char /\ c <> "m"%char /\
  c <> "f"%char /\ c <> "z"%char.

(** [arguments s vs s']: the stream [s] holds the top-level values [vs], one
    after the other, then the terminator 'z', then [s']. *)
Inductive arguments : stream -> list value -> stream -> Prop :=
| arguments_end : forall s, arguments (String "z" s) [] s
| arguments_next : forall c s v s1 vs s2,
    value_tag c ->
    decodes (String c EmptyString) s v s1 ->
    arguments s1 vs s2 ->
    arguments (String c s) (v :: vs) s2.

(** The two bytes of a length [n] in the format '>H'. *)
Definition pack_H (n : nat) : string :=
  bytes [N.of_nat n / 256; N.of_nat n mod 256]%N.

(** Every byte of the string is below 0x7F. *)
Fixpoint plain_ascii (s : string) : bool :=
  match s with
  | EmptyString => true
  | String c s' => in_range (N_of_ascii c) 0 127 && plain_ascii s'
  end.

Definition is_call (r : option envelope) : bool :=
  match r with Some (Call _ _ _) => true | _ => false end.

Definition is_reply (r : option envelope) : bool :=
  match r with Some (Reply _ _) => true | _ => false end.

(** Whether [map_store] accepts the key: under a type name the key goes
    through [str], which fails on non-ASCII text; without one it must be
    hashable. *)
Definition storable (cast : option string) (key : value) : bool :=
  if match cast with Some c => truthy_str c | None => false end
  then match key with VUnicode cps => is_ascii cps | _ => true end
  else hashable key.

(** [entries s kvs s']: starting at a tag byte, the stream [s] holds the
    key/value pairs [kvs], one after the other, then the terminator 'z', then
    [s']. *)
Inductive entries : stream -> list (value * value) -> stream -> Prop :=
| entries_end : forall s, entries (String "z" s) [] s
| entries_next : forall c s k c' s1 v s2 kvs s3,
    c <> "z"%char ->
    decodes (String c EmptyString) s k (String c' s1) ->
    decodes (String c' EmptyString) s1 v s2 ->
    entries s2 kvs s3 ->
    entries (String c s) ((k, v) :: kvs) s3.

(** [shape code v]: the kind of object, and its bounds, that the value
    decoder returns for each tag. *)
Inductive shape : string -> value -> Prop :=
| shape_N : shape "N" VNone
| shape_T : shape "T" (VBool true)
| shape_F : shape "F" (VBool false)
| shape_I : forall i, (- 2 ^ 31 <= i < 2 ^ 31)%Z -> shape "I" (VInt i)
| shape_L : forall i, (- 2 ^ 63 <= i < 2 ^ 63)%Z -> shape "L" (VLong i)
| shape_D : forall bits, (bits < 2 ^ 64)%N -> shape "D" (VFloat bits)
| shape_d : forall secs,
    (-62135596800 <= secs <= 253402300799)%Z -> shape "d" (VDate secs)
| shape_text : forall code cps,
    code = "s" \/ code = "x" \/ code = "S" \/ code = "X" ->
    shape code (VUnicode cps)
| shape_b : shape "b" VNone
| shape_B : forall data,
    (1 <= N.of_nat (String.length data) <= 65535)%N -> shape "B" (VBinary data)
| shape_r : forall type cps,
    (forall t, type = Some t -> t <> EmptyString) ->
    shape "r" (VRemote type (VUnicode cps))
| shape_V : forall ms, shape "V" (VList ms)
| shape_V_tuple : forall ms, shape "V" (VTuple ms)
| shape_M : forall kvs, shape "M" (VDict kvs)
| shape_M_typed : forall name kvs,
    name <> EmptyString -> shape "M" (VMagic name kvs).

(** [framed m]: what [m] returns it has read from the front of the stream,
    and as long as it leaves something unread, bytes added behind the stream
    change neither its result nor what it reads. *)
Definition framed {A} (m : M A) : Prop :=
  forall s a s',
    m s = Ok (a, s') ->
    suffix s' s /\
    (s' <> EmptyString -> forall t, m (s ++ t) = Ok (a, s' ++ t)).

(** * Properties *)

(** ** Byte strings and [_read] *)

Lemma length_take (n : nat) (s : string) :
  String.length (take n s) = Nat.min n (String.length s).
Proof.
  revert s; induction n as [|n IH]; intros [|c s]; simpl; auto.
Qed.

Lemma length_drop (n : nat) (s : string) :
  String.length (drop n s) = String.length s - n.
Proof.
  revert s; induction n as [|n IH]; intros [|c s]; simpl; auto.
Qed.

Lemma take_app (a s : string) : take (String.length a) (a ++ s) = a.
Proof.
  induction a as [|c a IH]; simpl.
  - destruct s; reflexivity.
  - now rewrite IH.
Qed.

Lemma drop_app (a s : string) : drop (String.length a) (a ++ s) = s.
Proof.
  induction a as [|c a IH]; simpl; auto.
Qed.

Lemma length_zero_iff (s : string) : (String.length s =? 0)%nat = true <-> s = EmptyString.
Proof.
  destruct s; simpl; split; intros H; auto; discriminate.
Qed.

Lemma length_app (a b : string) :
  String.length (a ++ b) = String.length a + String.length b.
Proof.
  induction a as [|c a IH]; simpl; auto.
Qed.

(** What a successful [_read] returns: the available prefix, never empty and
    possibly shorter than requested. *)
Lemma _read_Ok (n : nat) (s r s' : string) :
  _read n s = Ok (r, s') <-> (r = take n s /\ s' = drop n s /\ r <> EmptyString).
Proof.
  unfold _read, bind, stream_read, raise, ret.
  destruct (String.length (take n s) =? 0)%nat eqn:E.
  - apply length_zero_iff in E. split; [discriminate|].
    intros (-> & _ & H). contradiction.
  - split.
    + intros [= <- <-]. repeat split. intros H. rewrite H in E. discriminate.
    + intros (-> & -> & _). reflexivity.
Qed.

Lemma _read_cases (n : nat) (s : string) :
  _read n s = Raise (ParseError UnexpectedEndOfStream) \/
  _read n s = Ok (take n s, drop n s).
Proof.
  unfold _read, bind, stream_read, raise, ret.
  destruct (String.length (take n s) =? 0)%nat; auto.
Qed.

Lemma _read_zero (s : string) : _read 0 s = Raise (ParseError UnexpectedEndOfStream).
Proof. destruct s; reflexivity. Qed.

Lemma _read_empty (n : nat) : _read n EmptyString = Raise (ParseError UnexpectedEndOfStream).
Proof. destruct n; reflexivity. Qed.

(** A successful read consumes at least one byte. *)
Lemma _read_shrinks (n : nat) (s r s' : string) :
  _read n s = Ok (r, s') -> String.length s' < String.length s.
Proof.
  intros H. apply _read_Ok in H. destruct H as (-> & -> & H).
  rewrite length_drop. destruct n; [now destruct s|].
  destruct s; [contradiction|]. simpl. lia.
Qed.

Lemma _read_one (s r s' : string) :
  _read 1 s = Ok (r, s') -> exists c, r = String c EmptyString /\ s = String c s'.
Proof.
  intros H. apply _read_Ok in H. destruct H as (-> & -> & H).
  destruct s as [|c s]; [contradiction|]. exists c. simpl. split; auto.
Qed.

Lemma _read_one_cons (c : ascii) (s : string) :
  _read 1 (String c s) = Ok (String c EmptyString, s).
Proof. destruct s; reflexivity. Qed.

(** Reading exactly the bytes in front of the stream. *)
Lemma _read_app (a s : string) :
  a <> EmptyString -> _read (String.length a) (a ++ s) = Ok (a, s).
Proof.
  intros H. apply _read_Ok. now rewrite take_app, drop_app.
Qed.

(** ** More fuel never changes a result *)

Lemma le_fuel_refl {A} (m : M A) : le_fuel m m.
Proof. intros s _. reflexivity. Qed.

Lemma le_fuel_out {A} (m : M A) : le_fuel out_of_fuel m.
Proof. intros s H. now contradiction H. Qed.

Lemma le_fuel_bind {A B} (m m' : M A) (k k' : A -> M B) :
  le_fuel m m' -> (forall a, le_fuel (k a) (k' a)) ->
  le_fuel (bind m k) (bind m' k').
Proof.
  intros Hm Hk s H. unfold bind in *.
  destruct (m s) as [[a s1]| |] eqn:E.
  - rewrite (Hm s), E by (rewrite E; discriminate). now apply Hk.
  - rewrite (Hm s), E by (rewrite E; discriminate). reflexivity.
  - now contradiction H.
Qed.

Ltac mono :=
  repeat first
    [ apply le_fuel_refl
    | apply le_fuel_out
    | apply le_fuel_bind
    | match goal with
      | |- forall _, _ => intro
      | |- le_fuel (if ?b then _ else _) _ => destruct b
      | |- le_fuel (match ?x with _ => _ end) _ => destruct x
      | H : _ |- _ => apply H
      end ].

Section Monotone.

Variables ro ro' : string -> M value.
Hypothesis Hro : forall code, le_fuel (ro code) (ro' code).

Lemma _read_keyval_with_mono (first : option string) :
  le_fuel (_read_keyval_with ro first) (_read_keyval_with ro' first).
Proof. unfold _read_keyval_with. mono. Qed.

Lemma _read_remote_with_mono :
  le_fuel (_read_remote_with ro) (_read_remote_with ro').
Proof. unfold _read_remote_with. mono. Qed.

End Monotone.

Lemma _read_list_with_mono (loop loop' : string -> list value -> M (list value)) :
  (forall code ms, le_fuel (loop code ms) (loop' code ms)) ->
  le_fuel (_read_list_with loop) (_read_list_with loop').
Proof. intros H. unfold _read_list_with. mono. Qed.

Lemma _read_map_with_mono
    (loop loop' : option string -> string -> list (value * value)
                  -> M (list (value * value))) :
  (forall cast code fs, le_fuel (loop cast code fs) (loop' cast code fs)) ->
  le_fuel (_read_map_with loop) (_read_map_with loop').
Proof. intros H. unfold _read_map_with. mono. Qed.

Lemma fuel_mono (f : nat) :
  forall f', f <= f' ->
    (forall code, le_fuel (_read_object f code) (_read_object f' code)) /\
    (forall code ms, le_fuel (list_loop f code ms) (list_loop f' code ms)) /\
    (forall cast code fs,
        le_fuel (map_loop f cast code fs) (map_loop f' cast code fs)).
Proof.
  induction f as [|f IH]; intros f' Hle.
  - repeat split; intros; apply le_fuel_out.
  - destruct f' as [|f']; [lia|].
    destruct (IH f' ltac:(lia)) as (IHo & IHl & IHm).
    repeat split; intros; cbn [_read_object list_loop map_loop].
    + repeat match goal with
             | |- le_fuel (if ?b then _ else _) _ => destruct b
             end;
        first [ apply _read_remote_with_mono; assumption
              | apply _read_list_with_mono; assumption
              | apply _read_map_with_mono; assumption
              | mono ].
    + mono.
    + destruct (negb (code =? "z")); [|mono].
      apply le_fuel_bind; [apply _read_keyval_with_mono; assumption|].
      mono.
Qed.

Lemma _read_object_fuel (f f' : nat) (code : string) (s : stream) (r : value * stream) :
  _read_object f code s = Ok r -> f <= f' -> _read_object f' code s = Ok r.
Proof.
  intros H Hle. destruct (fuel_mono f f' Hle) as (Ho & _).
  rewrite (Ho code s); [assumption|]. rewrite H. discriminate.
Qed.

Lemma list_loop_fuel (f f' : nat) (code : string) (ms : list value) (s : stream)
    (r : list value * stream) :
  list_loop f code ms s = Ok r -> f <= f' -> list_loop f' code ms s = Ok r.
Proof.
  intros H Hle. destruct (fuel_mono f f' Hle) as (_ & Hl & _).
  rewrite (Hl code ms s); [assumption|]. rewrite H. discriminate.
Qed.

Lemma decodes_functional (code : string) (s : stream) (v v' : value) (s1 s1' : stream) :
  decodes code s v s1 -> decodes code s v' s1' -> v = v' /\ s1 = s1'.
Proof.
  intros [f Hf] [f' Hf'].
  apply (_read_object_fuel _ (Nat.max f f')) in Hf; [|lia].
  apply (_read_object_fuel _ (Nat.max f f')) in Hf'; [|lia].
  rewrite Hf in Hf'. now injection Hf' as <- <-.
Qed.

(** ** The fuel of [parse_stream] is always enough *)

Lemma triple_ret {A} (P : Prop) (a : A) (s : stream) (Q : A -> stream -> Prop) :
  Q a s -> triple P (ret a) s Q.
Proof. intros H. exact H. Qed.

Lemma triple_raise {A} (P : Prop) (e : exn) (s : stream) (Q : A -> stream -> Prop) :
  triple P (raise e) s Q.
Proof. exact I. Qed.

Lemma triple_out {A} (P : Prop) (s : stream) (Q : A -> stream -> Prop) :
  ~ P -> triple P out_of_fuel s Q.
Proof. intros H. exact H. Qed.

Lemma triple_bind {A B} (P : Prop) (m : M A) (k : A -> M B) (s : stream)
    (Q1 : A -> stream -> Prop) (Q : B -> stream -> Prop) :
  triple P m s Q1 ->
  (forall a s', Q1 a s' -> triple P (k a) s' Q) ->
  triple P (bind m k) s Q.
Proof.
  unfold triple, bind. intros Hm Hk.
  destruct (m s) as [[a s1]| |]; auto. now apply Hk.
Qed.

Lemma triple_weaken {A} (P P' : Prop) (m : M A) (s : stream)
    (Q Q' : A -> stream -> Prop) :
  triple P' m s Q' -> (P -> P') -> (forall a s', Q' a s' -> Q a s') ->
  triple P m s Q.
Proof.
  unfold triple. intros Hm HP HQ.
  destruct (m s) as [[a s1]| |]; auto.
Qed.

Lemma triple_read (P : Prop) (n : nat) (s : stream) :
  triple P (_read n) s (fun _ s' => String.length s' < String.length s).
Proof.
  unfold triple. destruct (_read n s) as [[r s1]| |] eqn:E; auto.
  - now apply _read_shrinks in E.
  - destruct (_read_cases n s) as [H|H]; rewrite H in E; discriminate.
Qed.

Lemma triple_bind_read {B} (P : Prop) (n : nat) (k : string -> M B) (s : stream)
    (Q : B -> stream -> Prop) :
  (forall r s', String.length s' < String.length s -> triple P (k r) s' Q) ->
  triple P (bind (_read n) k) s Q.
Proof. intros H. eapply triple_bind; [apply triple_read|]. exact H. Qed.

Lemma triple_bind_le {A B} (P : Prop) (m : M A) (k : A -> M B) (s : stream)
    (Q : B -> stream -> Prop) :
  triple P m s (fun _ s' => String.length s' <= String.length s) ->
  (forall a s', String.length s' <= String.length s -> triple P (k a) s' Q) ->
  triple P (bind m k) s Q.
Proof. intros Hm Hk. eapply triple_bind; [exact Hm|]. exact Hk. Qed.


Lemma triple_pure {A} (P : Prop) (m : M A) (s : stream) (Q : A -> stream -> Prop) :
  pure m -> (forall a, Q a s) -> triple P m s Q.
Proof.
  intros Hm HQ. unfold triple. specialize (Hm s).
  destruct (m s) as [[a s1]| |]; [subst; apply HQ | exact I | contradiction].
Qed.

Lemma triple_bind_pure {A B} (P : Prop) (m : M A) (k : A -> M B) (s : stream)
    (Q : B -> stream -> Prop) :
  pure m -> (forall a, triple P (k a) s Q) -> triple P (bind m k) s Q.
Proof.
  intros Hm Hk. eapply triple_bind.
  - apply (triple_pure P m s (fun _ s' => s' = s)); auto.
  - cbv beta. intros a s' ->. apply Hk.
Qed.

Lemma pure_ret {A} (a : A) : pure (ret a).
Proof. intros s. reflexivity. Qed.

Lemma pure_raise {A} (e : exn) : pure (@raise A e).
Proof. intros s. exact I. Qed.

Lemma pure_unpack_H r : pure (unpack_H r).
Proof. unfold unpack_H. destruct (_ =? _)%nat; [apply pure_ret|apply pure_raise]. Qed.

Lemma pure_unpack_l r : pure (unpack_l r).
Proof. unfold unpack_l. destruct (_ =? _)%nat; [apply pure_ret|apply pure_raise]. Qed.

Lemma pure_unpack_q r : pure (unpack_q r).
Proof. unfold unpack_q. destruct (_ =? _)%nat; [apply pure_ret|apply pure_raise]. Qed.

Lemma pure_unpack_d r : pure (unpack_d r).
Proof. unfold unpack_d. destruct (_ =? _)%nat; [apply pure_ret|apply pure_raise]. Qed.

Lemma pure_ord b : pure (ord b).
Proof. destruct b as [|c [|? ?]]; simpl; first [apply pure_ret|apply pure_raise]. Qed.

Lemma pure_fromtimestamp t : pure (fromtimestamp t).
Proof. unfold fromtimestamp. destruct (_ && _); [apply pure_ret|apply pure_raise]. Qed.

Lemma pure_decode_utf8 r : pure (decode_utf8 r).
Proof. unfold decode_utf8. destruct (utf8_decode _); [apply pure_ret|apply pure_raise]. Qed.

Lemma pure_py_add a b : pure (py_add a b).
Proof. destruct a, b; simpl; first [apply pure_ret|apply pure_raise]. Qed.

Lemma pure_dict_set d k v : pure (dict_set d k v).
Proof. unfold dict_set. destruct (hashable k); [apply pure_ret|apply pure_raise]. Qed.

Lemma pure_py_str k : pure (py_str k).
Proof.
  destruct k; simpl; try apply pure_ret.
  destruct (is_ascii cps); [apply pure_ret|apply pure_raise].
Qed.

Lemma pure_py_setattr a k v : pure (py_setattr a k v).
Proof.
  destruct k; simpl; try apply pure_raise.
  destruct (is_ascii cps); [apply pure_ret|apply pure_raise].
Qed.

Lemma pure_map_store c f k v : pure (map_store c f k v).
Proof.
  unfold map_store. destruct (match c with Some _ => _ | None => _ end).
  - intros s. unfold bind. pose proof (pure_py_str k s) as H.
    destruct (py_str k s) as [[a s1]| |]; auto.
  - apply pure_dict_set.
Qed.

Create HintDb pure discriminated.
#[local] Hint Resolve pure_ret pure_raise pure_unpack_H pure_unpack_l pure_unpack_q
  pure_unpack_d pure_ord pure_fromtimestamp pure_decode_utf8 pure_py_add
  pure_dict_set pure_py_str pure_py_setattr pure_map_store : pure.

Create HintDb shrink discriminated.

(** One step of symbolic execution of a [triple] goal whose postcondition
    bounds the length of the remaining stream. *)
Ltac tstep :=
  lazymatch goal with
  | |- triple _ (bind (_read _) _) _ _ => apply triple_bind_read; intros ? ? ?
  | |- triple _ (bind (if _ then _ else _) _) _ _ =>
      apply triple_bind_le; [ | intros ? ? ? ]
  | |- triple _ (bind (match _ with _ => _ end) _) _ _ =>
      apply triple_bind_le; [ | intros ? ? ? ]
  | |- triple _ (bind _ _) _ _ =>
      first [ apply triple_bind_pure; [ solve [auto with pure] | intros ? ]
            | apply triple_bind_le; [ | intros ? ? ? ] ]
  | |- triple _ (ret _) _ _ => apply triple_ret; lia
  | |- triple _ (raise _) _ _ => apply triple_raise
  | |- triple _ (if ?b then _ else _) _ _ => destruct b
  | |- triple _ (match ?x with _ => _ end) _ _ => destruct x
  | |- triple _ _ _ _ =>
      first [ apply triple_pure; [ solve [auto with pure] | intros; lia ]
            | eapply triple_weaken;
              [ first [ apply triple_read | solve [eauto with shrink] ]
              | first [ exact (fun H => H) | intros; lia ]
              | cbv beta; intros; lia ] ]
  end.

Lemma string_loop_shrinks (P : Prop) (len : nat) :
  forall acc s,
    triple P (string_loop len acc) s
           (fun _ s' => String.length s' <= String.length s).
Proof.
  induction len as [|len IH]; intros acc s; cbn [string_loop].
  - tstep.
  - repeat tstep.
Qed.
#[local] Hint Resolve string_loop_shrinks : shrink.

Lemma _read_string_shrinks (P : Prop) (s : stream) :
  triple P _read_string s (fun _ s' => String.length s' <= String.length s).
Proof. unfold _read_string. repeat tstep. Qed.

Lemma _read_binary_shrinks (P : Prop) (s : stream) :
  triple P _read_binary s (fun _ s' => String.length s' <= String.length s).
Proof. unfold _read_binary. repeat tstep. Qed.

Lemma _read_date_shrinks (P : Prop) (s : stream) :
  triple P _read_date s (fun _ s' => String.length s' <= String.length s).
Proof. unfold _read_date. repeat tstep. Qed.

#[local] Hint Resolve _read_string_shrinks _read_binary_shrinks _read_date_shrinks
  : shrink.

(** With fuel above twice the length of the stream the value decoder
    terminates, and what it leaves of the stream is never longer than what it
    was given. *)
Lemma fuel_enough (f : nat) :
  (forall code s,
      triple (2 * String.length s + 1 <= f) (_read_object f code) s
             (fun _ s' => String.length s' <= String.length s)) /\
  (forall code ms s,
      triple (2 * String.length s + 2 <= f) (list_loop f code ms) s
             (fun _ s' => String.length s' <= String.length s)) /\
  (forall cast code fs s,
      triple (2 * String.length s + 2 <= f) (map_loop f cast code fs) s
             (fun _ s' => String.length s' <= String.length s)).
Proof.
  induction f as [|f (IHo & IHl & IHm)].
  - repeat split; intros; apply triple_out; lia.
  - repeat split; intros; cbn [_read_object list_loop map_loop];
      unfold _read_remote_with, _read_list_with, _read_map_with,
        _read_keyval_with;
      repeat tstep.
Qed.

Lemma _read_object_shrinks (P : Prop) (f : nat) (code : string) (s : stream) :
  (P -> 2 * String.length s + 1 <= f) ->
  triple P (_read_object f code) s
         (fun _ s' => String.length s' <= String.length s).
Proof.
  intros H. eapply triple_weaken; [apply fuel_enough | exact H | auto].
Qed.

(** A call of the value decoder under a fuel bound [H] on the initial stream. *)
Ltac tcall H :=
  eapply triple_weaken;
  [ apply fuel_enough
  | let HP := fresh in intros HP; specialize (H HP); lia
  | cbv beta; intros; lia ].

Lemma _read_fault_shrinks (P : Prop) (f : nat) (s : stream) :
  (P -> 2 * String.length s + 1 <= f) ->
  triple P (_read_fault f) s
         (fun _ s' => String.length s' <= String.length s).
Proof.
  intros H. unfold _read_fault, _read_keyval, _read_keyval_with.
  repeat first [ tstep | tcall H ].
Qed.

Lemma loop_body_shrinks (f : nat) (r : option envelope) (s : stream) :
  triple (2 * String.length s <= f + 1) (loop_body f r) s
         (fun _ s' => String.length s' < String.length s).
Proof.
  assert (H : 2 * String.length s <= f + 1 -> 2 * String.length s <= f + 1)
    by auto.
  unfold loop_body, _read_keyval, _read_keyval_with.
  repeat first
    [ tstep
    | tcall H
    | eapply triple_weaken;
      [ apply _read_fault_shrinks with (P := 2 * String.length s <= f + 1);
        intros; lia
      | exact (fun H => H)
      | cbv beta; intros; lia ] ].
Qed.

Lemma parse_loop_enough (f : nat) :
  forall r s,
    triple (2 * String.length s + 1 <= f) (parse_loop f r) s (fun _ _ => True).
Proof.
  induction f as [|f IH]; intros r s.
  - apply triple_out. lia.
  - cbn [parse_loop]. eapply triple_bind.
    + eapply triple_weaken;
        [ apply loop_body_shrinks | intros; lia | intros a s' H; exact H ].
    + cbv beta. intros [r'|] s' Hlt.
      * eapply triple_weaken; [ apply IH | intros; lia | auto ].
      * apply triple_ret. exact I.
Qed.

(** [parse_stream] terminates on every input: it returns an envelope or
    raises an exception. *)
Theorem parse_stream_total (s : stream) : parse_stream s <> OutOfFuel.
Proof.
  unfold parse_stream. intros E.
  pose proof (parse_loop_enough (2 * String.length s + 1) None s) as H.
  unfold triple in H. rewrite E in H. apply H. lia.
Qed.

Lemma loop_body_mono (f f' : nat) (r : option envelope) :
  f <= f' -> le_fuel (loop_body f r) (loop_body f' r).
Proof.
  intros Hle. destruct (fuel_mono f f' Hle) as (Ho & _).
  assert (Hk : forall first,
             le_fuel (_read_keyval f first) (_read_keyval f' first))
    by (intros; apply _read_keyval_with_mono; exact Ho).
  unfold loop_body, _read_fault.
  repeat first
    [ apply le_fuel_refl
    | apply Ho
    | apply Hk
    | apply le_fuel_bind
    | match goal with
      | |- forall _, _ => intro
      | |- le_fuel (if ?b then _ else _) _ => destruct b
      | |- le_fuel (match ?x with _ => _ end) _ => destruct x
      end ].
Qed.

Lemma parse_loop_mono (f : nat) :
  forall f' r, f <= f' -> le_fuel (parse_loop f r) (parse_loop f' r).
Proof.
  induction f as [|f IH]; intros f' r Hle.
  - apply le_fuel_out.
  - destruct f' as [|f']; [lia|]. cbn [parse_loop].
    apply le_fuel_bind; [apply loop_body_mono; lia|].
    intros [r'|]; [apply IH; lia|apply le_fuel_refl].
Qed.

(** Any amount of fuel that lets the loop finish gives the result of
    [parse_stream]. *)
Lemma parse_stream_fuel (f : nat) (s : stream) (x : result (option envelope * stream)) :
  parse_loop f None s = x -> x <> OutOfFuel -> parse_stream s = x.
Proof.
  intros H Hx. unfold parse_stream.
  destruct (Nat.le_ge_cases f (2 * String.length s + 1)) as [Hle|Hge].
  - rewrite (parse_loop_mono f _ None Hle s); rewrite H; auto.
  - pose proof (parse_stream_total s) as Ht. unfold parse_stream in Ht.
    rewrite <- H. symmetry. now apply (parse_loop_mono _ f None Hge s).
Qed.

Lemma parse_string_fuel (f : nat) (s : stream) (r : option envelope) (s' : stream) :
  parse_loop f None s = Ok (r, s') -> parse_string s = Ok r.
Proof.
  intros H. unfold parse_string.
  rewrite (parse_stream_fuel f s _ H); [reflexivity|discriminate].
Qed.

Lemma parse_string_fuel_raise (f : nat) (s : stream) (e : exn) :
  parse_loop f None s = Raise e -> parse_string s = Raise e.
Proof.
  intros H. unfold parse_string.
  rewrite (parse_stream_fuel f s _ H); [reflexivity|discriminate].
Qed.

(** ** Zero-length reads *)


(** C10. A read of zero bytes is reported as the end of the stream, so a
    binary value, a method name or a type name declared with length zero makes
    the parse fail with 'unexpected end of stream', whatever follows it in the
    stream; no empty value is produced. *)
Theorem C10_zero_length_is_end_of_stream :
  (forall s, _read 0 s = Raise (ParseError UnexpectedEndOfStream)) /\
  (forall rest,
      _read_binary (zero2 ++ rest) = Raise (ParseError UnexpectedEndOfStream)) /\
  (forall fuel rest,
      _read_object (S fuel) "B" (zero2 ++ rest)
      = Raise (ParseError UnexpectedEndOfStream)) /\
  (forall fuel hs args rest,
      loop_body fuel (Some (Call hs None args)) ("m" ++ zero2 ++ rest)
      = Raise (ParseError UnexpectedEndOfStream)) /\
  (forall fuel hs args rest,
      loop_body fuel (Some (Call hs (Some EmptyString) args)) ("m" ++ zero2 ++ rest)
      = Raise (ParseError UnexpectedEndOfStream)) /\
  (forall fuel rest,
      _read_list fuel ("t" ++ zero2 ++ rest)
      = Raise (ParseError UnexpectedEndOfStream)) /\
  (forall fuel rest,
      _read_map fuel ("t" ++ zero2 ++ rest)
      = Raise (ParseError UnexpectedEndOfStream)) /\
  (forall fuel rest,
      _read_remote fuel ("t" ++ zero2 ++ rest)
      = Raise (ParseError UnexpectedEndOfStream)) /\
  Forall (fun msg => forall rest,
              parse_string (msg ++ rest)
              = Raise (ParseError UnexpectedEndOfStream))
         zero_length_messages.
Proof.
  split; [apply _read_zero|].
  repeat split; try (intros; reflexivity).
  unfold zero_length_messages.
  repeat apply Forall_cons; try apply Forall_nil; intros rest;
    apply (parse_string_fuel_raise 5); reflexivity.
Qed.

(** ** Inversion of successful runs *)

Lemma bind_Ok {A B} (m : M A) (k : A -> M B) (s : stream) (x : B * stream) :
  bind m k s = Ok x -> exists a s', m s = Ok (a, s') /\ k a s' = Ok x.
Proof.
  unfold bind. destruct (m s) as [[a s']| |]; try discriminate.
  intros H. now exists a, s'.
Qed.

Lemma bind_run {A B} (m : M A) (k : A -> M B) (s s' : stream) (a : A) :
  m s = Ok (a, s') -> bind m k s = k a s'.
Proof. unfold bind. now intros ->. Qed.

Lemma ret_Ok {A} (a b : A) (s s' : stream) : ret a s = Ok (b, s') -> a = b /\ s = s'.
Proof. unfold ret. intros [= -> ->]. auto. Qed.

Ltac inv_run :=
  repeat match goal with
    | H : bind _ _ _ = Ok _ |- _ =>
        apply bind_Ok in H; destruct H as (? & ? & ? & H)
    | H : raise _ _ = Ok _ |- _ => discriminate H
    | H : out_of_fuel _ = Ok _ |- _ => discriminate H
    | H : ret _ _ = Ok _ |- _ => apply ret_Ok in H; destruct H as [? ?]
    | H : (if ?b then _ else _) _ = Ok _ |- _ => destruct b eqn:?
    | H : (match ?x with _ => _ end) _ = Ok _ |- _ => destruct x eqn:?
    end.

(** ** The method name of a call *)


Lemma method_tag_sets (fuel : nat) (r r1 : option envelope) (s s1 : stream) :
  loop_body fuel r (String "m" s) = Ok (Continue r1, s1) -> method_set r1.
Proof.
  unfold loop_body. intros H.
  apply bind_Ok in H. destruct H as (code & s0 & Hc & H).
  rewrite _read_one_cons in Hc. injection Hc as <- <-.
  cbn [String.eqb Ascii.eqb Bool.eqb] in H.
  destruct r as [[hs m args|hs v]|]; try discriminate H.
  destruct (truthy_method m); [discriminate H|].
  inv_run. subst.
  match goal with
  | Hr : _read _ _ = Ok (?name, _) |- _ =>
      apply _read_Ok in Hr; destruct Hr as (_ & _ & Hne)
  end.
  match goal with
  | Hc : Continue _ = Continue _ |- _ => injection Hc as <-
  end.
  do 3 eexists; split; [reflexivity|assumption].
Qed.

Lemma method_set_preserved (fuel : nat) (r r1 : option envelope) (s s1 : stream) :
  method_set r -> loop_body fuel r s = Ok (Continue r1, s1) -> method_set r1.
Proof.
  intros (hs & name & args & -> & Hne) H.
  assert (Ht : truthy_method (Some name) = true).
  { simpl. unfold truthy_str. destruct name; [contradiction|reflexivity]. }
  unfold loop_body in H. cbn [is_set] in H. rewrite Ht in H.
  inv_run; subst;
    match goal with
    | Hc : Continue _ = Continue _ |- _ => injection Hc as <-
    | Hc : Break = Continue _ |- _ => discriminate Hc
    end; do 3 eexists; split; solve [reflexivity | eassumption].
Qed.

Lemma method_set_duplicate (fuel : nat) (r : option envelope) (s : stream) :
  method_set r ->
  loop_body fuel r (String "m" s) = Raise (ParseError DuplicateMethodName).
Proof.
  intros (hs & name & args & -> & Hne).
  unfold loop_body, bind. rewrite _read_one_cons.
  cbn [String.eqb Ascii.eqb Bool.eqb truthy_method].
  unfold truthy_str. destruct name; [contradiction|reflexivity].
Qed.

Lemma iterations_method_set (r : option envelope) (s : stream)
    (r' : option envelope) (s' : stream) :
  iterations r s r' s' -> method_set r -> method_set r'.
Proof.
  induction 1 as [|fuel r s r1 s1 r2 s2 Hstep _ IH]; auto.
  intros H. apply IH. eapply method_set_preserved; eassumption.
Qed.

(** C5 fails as stated on the empty method name.  An 'm' tag of length zero
    sets no name: the parse ends there with 'unexpected end of stream', not
    with 'duplicate method name definition' at the second 'm' tag.  And the
    guard tests the truth value of the name, so on a call whose method is the
    empty string a further 'm' tag is accepted and replaces it. *)
Lemma C5_empty_method_name_is_not_duplicate :
  parse_string ("c" ++ version_1_0 ++ "m" ++ zero2
                    ++ "m" ++ bytes [0; 3]%N ++ "foo" ++ "z")
  = Raise (ParseError UnexpectedEndOfStream)
  /\ parse_string ("c" ++ version_1_0 ++ "m" ++ zero2
                       ++ "m" ++ bytes [0; 3]%N ++ "foo" ++ "z")
     <> Raise (ParseError DuplicateMethodName)
  /\ loop_body 0 (Some (Call [] (Some EmptyString) []))
               ("m" ++ bytes [0; 3]%N ++ "bar" ++ "z")
     = Ok (Continue (Some (Call [] (Some "bar") [])), "z").
Proof.
  assert (H : parse_string ("c" ++ version_1_0 ++ "m" ++ zero2
                                ++ "m" ++ bytes [0; 3]%N ++ "foo" ++ "z")
              = Raise (ParseError UnexpectedEndOfStream))
    by (apply (parse_string_fuel_raise 3); reflexivity).
  split; [exact H|]. split; [rewrite H; discriminate|reflexivity].
Qed.

(** C5 (amended). An 'm' tag that is accepted sets a method name that is not
    empty, and the name stays set and not empty through every later iteration
    of the loop; a later 'm' tag of the same parse then fails with 'duplicate
    method name definition', however many iterations lie between the two and
    whatever the (non-zero) length of the name. *)
Theorem C5_second_method_tag_is_duplicate :
  forall fuel r s r1 s1 r2 s2 fuel',
    loop_body fuel r ("m" ++ s) = Ok (Continue r1, s1) ->
    iterations r1 s1 r2 ("m" ++ s2) ->
    (exists hs name args,
        r2 = Some (Call hs (Some name) args) /\ name <> EmptyString) /\
    loop_body fuel' r2 ("m" ++ s2) = Raise (ParseError DuplicateMethodName).
Proof.
  intros fuel r s r1 s1 r2 s2 fuel' Hm Hit.
  assert (Hset : method_set r2).
  { eapply iterations_method_set; [exact Hit|].
    eapply method_tag_sets. exact Hm. }
  split; [exact Hset|]. now apply method_set_duplicate.
Qed.

(** A first 'm' tag naming "foo", one argument, then a second 'm' tag. *)
Lemma C5_second_method_tag_witness :
  (exists hs name args,
      Some (Call [] (Some "foo") [VBool true]) = Some (Call hs (Some name) args)
      /\ name <> EmptyString) /\
  loop_body 0 (Some (Call [] (Some "foo") [VBool true]))
            ("m" ++ bytes [0; 3]%N ++ "bar" ++ "z")
  = Raise (ParseError DuplicateMethodName).
Proof.
  apply (C5_second_method_tag_is_duplicate
           0 (Some new_Call)
           (bytes [0; 3]%N ++ "foo" ++ "T" ++ "m" ++ bytes [0; 3]%N ++ "bar" ++ "z")
           (Some (Call [] (Some "foo") []))
           ("T" ++ "m" ++ bytes [0; 3]%N ++ "bar" ++ "z")
           (Some (Call [] (Some "foo") [VBool true]))
           (bytes [0; 3]%N ++ "bar" ++ "z") 0).
  - reflexivity.
  - apply (iterations_more 1 _ _ (Some (Call [] (Some "foo") [VBool true]))
             ("m" ++ bytes [0; 3]%N ++ "bar" ++ "z")).
    + reflexivity.
    + apply iterations_none.
Defined.

(** ** Lists *)

Lemma list_loop_members (f : nat) :
  forall c s acc ms s',
    list_loop f (String c EmptyString) acc s = Ok (ms, s') ->
    exists vs, ms = (acc ++ vs)%list /\ members (String c s) vs s'.
Proof.
  induction f as [|f IH]; intros c s acc ms s' H; [discriminate H|].
  cbn [list_loop] in H.
  destruct (String.eqb_spec (String c EmptyString) "z") as [E|E]; cbn [negb] in H.
  - injection E as ->. apply ret_Ok in H. destruct H as [<- <-].
    exists []. rewrite app_nil_r. split; [reflexivity|apply members_end].
  - apply bind_Ok in H. destruct H as (v & s1 & Hv & H).
    apply bind_Ok in H. destruct H as (code' & s2 & Hc & H).
    apply _read_one in Hc. destruct Hc as (c' & -> & ->).
    apply IH in H. destruct H as (vs & -> & Hm).
    exists (v :: vs). rewrite <- app_assoc. split; [reflexivity|].
    apply members_next with (s1 := String c' s2); auto.
    + intros ->. now apply E.
    + now exists f.
Qed.

Lemma members_list_loop (s : stream) (vs : list value) (s' : stream) :
  members s vs s' ->
  exists f, forall acc,
    match s with
    | String c s0 => list_loop f (String c EmptyString) acc s0 = Ok ((acc ++ vs)%list, s')
    | EmptyString => False
    end.
Proof.
  induction 1 as [s|c s v s1 vs s2 Hc [f1 Hv] Hm [f2 IH]].
  - exists 1. intros acc. cbn. now rewrite app_nil_r.
  - exists (S (Nat.max f1 f2)). intros acc. cbn [list_loop].
    destruct (String.eqb_spec (String c EmptyString) "z") as [E|E];
      [injection E as ->; contradiction|]. cbn [negb].
    unfold bind.
    rewrite (_read_object_fuel f1 (Nat.max f1 f2) _ _ _ Hv) by lia.
    destruct s1 as [|c' s1]; [destruct (IH [])|].
    rewrite _read_one_cons.
    rewrite (list_loop_fuel f2 (Nat.max f1 f2) _ _ _ _ (IH (acc ++ [v])%list))
      by lia.
    now rewrite <- app_assoc.
Qed.

(** After an optional type name, the 'l' tag and the four bytes of the
    declared count, [_read_list] is its member loop under the [tuple] cast. *)
Lemma _read_list_length_tag (fuel : nat) (pre cnt s : string) :
  type_prefix pre -> String.length cnt = 4 ->
  _read_list fuel (pre ++ "l" ++ cnt ++ s)
  = (code <- _read 1 ;;
     ms <- list_loop fuel code [] ;;
     ret (VTuple ms)) s.
Proof.
  intros Hpre Hcnt.
  assert (Hne : cnt <> EmptyString) by (intros ->; discriminate Hcnt).
  assert (Hfour : _read 4 (cnt ++ s) = Ok (cnt, s))
    by (rewrite <- Hcnt; now apply _read_app).
  assert (Htail : forall K : string * (list value -> value) -> M value,
             bind (_ <- _read 4 ;; code <- _read 1 ;; ret (code, VTuple)) K
                  (cnt ++ s)
             = bind (code <- _read 1 ;; ret (code, VTuple)) K s).
  { intros K. unfold bind at 1. unfold bind at 1. now rewrite Hfour. }
  destruct Hpre as [->|(hi & lo & name & -> & Hlen & Hname)].
  - unfold _read_list, _read_list_with.
    cbn [append]. erewrite bind_run by apply _read_one_cons.
    cbn [String.eqb Ascii.eqb Bool.eqb].
    erewrite bind_run by reflexivity.
    cbn [String.eqb Ascii.eqb Bool.eqb].
    rewrite Htail. unfold bind, ret.
    destruct (_read 1 s) as [[code s1]| |]; reflexivity.
  - unfold _read_list, _read_list_with.
    cbn [append]. erewrite bind_run by apply _read_one_cons.
    cbn [String.eqb Ascii.eqb Bool.eqb].
    assert (Hname' : _read (N.to_nat (be_uint 0 (String hi (String lo EmptyString))))
                       (name ++ String "l" (cnt ++ s))
                     = Ok (name, String "l" (cnt ++ s))).
    { cbn [be_uint]. rewrite N.mul_0_l, N.add_0_l, <- Hlen.
      now apply _read_app. }
    erewrite bind_run;
      [|erewrite bind_run by reflexivity;
        erewrite bind_run by reflexivity;
        erewrite bind_run by exact Hname';
        apply _read_one_cons].
    cbn [String.eqb Ascii.eqb Bool.eqb].
    rewrite Htail. unfold bind, ret.
    destruct (_read 1 s) as [[code s1]| |]; reflexivity.
Qed.

(** C7. A list carrying an 'l' tag (after an optional type name) decodes to a
    tuple; its members are exactly the values found, in order, between the
    four count bytes and the terminator 'z', and the count bytes themselves
    have no influence on the result. *)
Theorem C7_list_with_length_is_tuple_of_members :
  forall pre cnt s v s',
    type_prefix pre -> String.length cnt = 4 ->
    ((exists fuel, _read_list fuel (pre ++ "l" ++ cnt ++ s) = Ok (v, s'))
     <-> (exists ms, v = VTuple ms /\ members s ms s')).
Proof.
  intros pre cnt s v s' Hpre Hcnt. split.
  - intros [fuel H]. rewrite _read_list_length_tag in H by assumption.
    apply bind_Ok in H. destruct H as (code & s1 & Hc & H).
    apply bind_Ok in H. destruct H as (ms & s2 & Hl & H).
    apply ret_Ok in H. destruct H as [<- <-].
    apply _read_one in Hc. destruct Hc as (c & -> & ->).
    apply list_loop_members in Hl. destruct Hl as (vs & -> & Hm).
    now exists vs.
  - intros (ms & -> & Hm).
    destruct (members_list_loop _ _ _ Hm) as [f Hf].
    exists f. rewrite _read_list_length_tag by assumption.
    destruct s as [|c s]; [destruct (Hf [])|].
    unfold bind. rewrite _read_one_cons, (Hf []). reflexivity.
Qed.

(** A list declaring nine members and holding two. *)
Lemma C7_list_with_length_witness :
  exists ms, VTuple [VBool true; VBool false] = VTuple ms /\ members "TFz" ms EmptyString.
Proof.
  apply (proj1 (C7_list_with_length_is_tuple_of_members
                  EmptyString (bytes [0; 0; 0; 9]%N) "TFz"
                  (VTuple [VBool true; VBool false]) EmptyString
                  (or_introl eq_refl) eq_refl)).
  exists 3. reflexivity.
Defined.

(** ** Chunked values *)

Ltac dispatch :=
  cbn [_read_object String.eqb Ascii.eqb Bool.eqb orb andb negb].

(** The 'b' branch never returns a [Binary]: it raises, or falls off the end
    of [_read_object] and returns [None]. *)
Lemma binary_chunk_returns_None (fuel : nat) (s : stream) (v : value) (s' : stream) :
  _read_object fuel "b" s = Ok (v, s') -> v = VNone.
Proof.
  destruct fuel as [|fuel]; [discriminate|]. dispatch. intros H.
  inv_run. congruence.
Qed.

(** When the tag after a 'b' chunk is 'b' or 'B', the call
    [self._read_binary(next)] raises [TypeError]. *)
Lemma binary_chunk_continuation_raises (fuel : nat) (s s1 s2 : stream)
    (fragment : value) (next : string) :
  _read_binary s = Ok (fragment, s1) ->
  _read 1 s1 = Ok (next, s2) ->
  lower next = "b" ->
  _read_object (S fuel) "b" s = Raise TypeError.
Proof.
  intros Hf Hn Hl. dispatch.
  erewrite bind_run by exact Hf. erewrite bind_run by exact Hn.
  now rewrite Hl.
Qed.

(** When it is any other tag, the chunk is dropped and [None] is returned. *)
Lemma binary_chunk_mismatch_returns_None (fuel : nat) (s s1 s2 : stream)
    (fragment : value) (next : string) :
  _read_binary s = Ok (fragment, s1) ->
  _read 1 s1 = Ok (next, s2) ->
  lower next <> "b" ->
  _read_object (S fuel) "b" s = Ok (VNone, s2).
Proof.
  intros Hf Hn Hl. dispatch.
  erewrite bind_run by exact Hf. erewrite bind_run by exact Hn.
  apply String.eqb_neq in Hl. now rewrite Hl.
Qed.

(** A non-terminal string chunk followed by a tag of another kind fails with
    'Expected terminal string segment'. *)
Lemma string_chunk_mismatch_raises (fuel : nat) (code : string) (s s1 s2 : stream)
    (fragment : value) (next : string) :
  code = "s" \/ code = "x" ->
  _read_string s = Ok (fragment, s1) ->
  _read 1 s1 = Ok (next, s2) ->
  lower next <> code ->
  _read_object (S fuel) code s = Raise (ParseError ExpectedTerminalChunk).
Proof.
  intros Hc Hf Hn Hl. apply String.eqb_neq in Hl.
  destruct Hc as [-> | ->]; dispatch;
    erewrite bind_run by exact Hf; erewrite bind_run by exact Hn;
    now rewrite Hl.
Qed.

(** C1. The 'b' branch does not concatenate: on a non-terminal binary chunk
    followed by a terminal one ('B') or by another non-terminal one ('b') the
    parse ends with [TypeError], and no [Binary] value is produced. *)
Theorem C1_binary_chunks_are_not_concatenated :
  parse_string ("r" ++ version_1_0 ++ "b" ++ bytes [0; 1]%N ++ "A"
                    ++ "B" ++ bytes [0; 1]%N ++ "C" ++ "z")
  = Raise TypeError
  /\ parse_string ("c" ++ version_1_0 ++ "b" ++ bytes [0; 1]%N ++ "A"
                       ++ "b" ++ bytes [0; 1]%N ++ "C"
                       ++ "B" ++ bytes [0; 1]%N ++ "D" ++ "z")
     = Raise TypeError
  /\ _read_object 1 "b" (bytes [0; 1]%N ++ "A" ++ "B" ++ bytes [0; 1]%N ++ "C")
     = Raise TypeError.
Proof.
  repeat split;
    first [ apply (parse_string_fuel_raise 5); reflexivity | reflexivity ].
Qed.

(** C6. A 'b' chunk followed by a tag that is neither 'b' nor 'B' does not
    fail: the value decoder returns [None], which becomes the value of the
    reply or an argument of the call, and the tag that was read is lost. *)
Theorem C6_binary_chunk_mismatch_yields_None :
  parse_string ("r" ++ version_1_0 ++ "b" ++ bytes [0; 1]%N ++ "A" ++ "N" ++ "z")
  = Ok (Some (Reply [] VNone))
  /\ parse_string ("c" ++ version_1_0 ++ "b" ++ bytes [0; 1]%N ++ "A" ++ "N" ++ "z")
     = Ok (Some (Call [] None [VNone]))
  /\ _read_object 1 "b" (bytes [0; 1]%N ++ "A" ++ "N" ++ "z") = Ok (VNone, "z")
  /\ _read_object 1 "s" (bytes [0; 1]%N ++ "A" ++ "N" ++ "z")
     = Raise (ParseError ExpectedTerminalChunk).
Proof.
  repeat split;
    first [ apply (parse_string_fuel 5 _ _ EmptyString); reflexivity | reflexivity ].
Qed.

(** ** Back-references *)

(** C9 fails as stated: the exception raised on the tag 'R' is not a
    [ParseError]. *)
Lemma C9_back_reference_not_ParseError :
  ~ (exists e, parse_string ("c" ++ version_1_0 ++ "R" ++ bytes [0; 0; 0; 0]%N ++ "z")
               = Raise (ParseError e)).
Proof.
  intros [e H].
  rewrite (parse_string_fuel_raise 3 _ NotImplementedError) in H
    by reflexivity.
  discriminate H.
Qed.

(** C9 (amended). Wherever the value decoder is entered with the tag 'R' it
    raises the built-in [NotImplementedError], which is not a [ParseError];
    nothing is read from the stream and no reference is resolved.  The same
    exception leaves the loop of [parse_stream] when 'R' stands for an argument
    of a call or for the value of a reply that has none yet. *)
Theorem C9_back_reference_raises_NotImplementedError :
  (forall fuel s, _read_object (S fuel) "R" s = Raise NotImplementedError) /\
  is_ParseError NotImplementedError = false /\
  (forall fuel hs m args s,
      loop_body (S fuel) (Some (Call hs m args)) ("R" ++ s)
      = Raise NotImplementedError) /\
  (forall fuel hs s,
      loop_body (S fuel) (Some (Reply hs VNone)) ("R" ++ s)
      = Raise NotImplementedError).
Proof.
  repeat split; intros; unfold loop_body; cbn [append];
    try (erewrite bind_run by apply _read_one_cons); reflexivity.
Qed.

(** ** Strings *)

(** The step of the character loop on a byte below 0x7F: the byte is one
    character. *)
Lemma string_loop_ascii (len : nat) (acc : list string) (c : ascii) (s : stream) :
  in_range (N_of_ascii c) 0 127 = true ->
  string_loop (S len) acc (String c s)
  = string_loop len (acc ++ [String c EmptyString])%list s.
Proof.
  intros H. cbn [string_loop].
  erewrite bind_run by apply _read_one_cons.
  erewrite bind_run by reflexivity.
  rewrite H. erewrite bind_run by reflexivity. reflexivity.
Qed.

(** On a lead byte from 0xC2 up to 0xDE: the byte and the next one are one
    character. *)
Lemma string_loop_two_bytes (len : nat) (acc : list string) (c c1 : ascii)
    (s : stream) :
  in_range (N_of_ascii c) 194 223 = true ->
  string_loop (S len) acc (String c (String c1 s))
  = string_loop len (acc ++ [String c (String c1 EmptyString)])%list s.
Proof.
  intros H. cbn [string_loop].
  erewrite bind_run by apply _read_one_cons.
  erewrite bind_run by reflexivity.
  assert (H0 : in_range (N_of_ascii c) 0 127 = false).
  { unfold in_range in *. apply andb_true_iff in H. destruct H as [H _].
    apply N.leb_le in H. apply andb_false_iff. right. apply N.ltb_ge. lia. }
  rewrite H0, H.
  erewrite bind_run
    by (erewrite bind_run by apply _read_one_cons; reflexivity).
  reflexivity.
Qed.

(** On a byte of no class the character is counted and nothing is kept. *)
Lemma string_loop_skips (len : nat) (acc : list string) (c : ascii) (s : stream) :
  in_range (N_of_ascii c) 0 127 = false ->
  in_range (N_of_ascii c) 194 223 = false ->
  in_range (N_of_ascii c) 224 239 = false ->
  in_range (N_of_ascii c) 240 244 = false ->
  string_loop (S len) acc (String c s) = string_loop len acc s.
Proof.
  intros H0 H1 H2 H3. cbn [string_loop].
  erewrite bind_run by apply _read_one_cons.
  erewrite bind_run by reflexivity.
  rewrite H0, H1, H2, H3. erewrite bind_run by reflexivity. reflexivity.
Qed.

(** The bytes 0x7F, 0xDF, 0xEF and 0xF4 are of no class. *)
Lemma upper_bounds_have_no_class :
  Forall (fun o => in_range o 0 127 = false /\ in_range o 194 223 = false /\
                   in_range o 224 239 = false /\ in_range o 240 244 = false)
         [127; 223; 239; 244]%N.
Proof. repeat constructor. Qed.

(** C2. The lead-byte classes of [_read_string] exclude their upper bounds:
    the bytes 0x7F, 0xDF, 0xEF and 0xF4 belong to no class and are skipped
    while still counting as a character.  A one-character string holding DEL
    decodes to the empty string; a three-character string whose first
    character starts with 0xDF yields one character and consumes three of its
    four bytes; a malformed sequence raises [UnicodeDecodeError], not a
    [ParseError].  Lead bytes below the bounds are decoded as expected. *)
Theorem C2_lead_byte_ranges_exclude_upper_bounds :
  _read_string (bytes [0; 1; 127]%N ++ "z") = Ok (VUnicode [], "z")
  /\ _read_string (bytes [0; 3; 223; 128; 65; 66]%N ++ "z")
     = Ok (VUnicode [65%N], "B" ++ "z")
  /\ _read_string (bytes [0; 1; 239; 187; 191]%N ++ "z")
     = Ok (VUnicode [], bytes [187; 191]%N ++ "z")
  /\ _read_string (bytes [0; 1; 244; 143; 191; 191]%N ++ "z")
     = Ok (VUnicode [], bytes [143; 191; 191]%N ++ "z")
  /\ parse_string ("r" ++ version_1_0 ++ "S" ++ bytes [0; 1; 127]%N ++ "z")
     = Ok (Some (Reply [] (VUnicode [])))
  /\ _read_string (bytes [0; 1; 195; 65]%N ++ "z") = Raise UnicodeDecodeError
  /\ _read_string (bytes [0; 3; 195; 169; 65; 66]%N ++ "z")
     = Ok (VUnicode [233%N; 65%N; 66%N], "z").
Proof.
  repeat split;
    first [ apply (parse_string_fuel 5 _ _ EmptyString); reflexivity | reflexivity ].
Qed.

(** ** Short reads *)

(** When at least [n > 0] bytes are left, [_read n] returns exactly [n]. *)
Lemma _read_exact (n : nat) (s r s' : string) :
  _read n s = Ok (r, s') -> n <= String.length s -> String.length r = n.
Proof.
  intros H Hn. apply _read_Ok in H. destruct H as (-> & _ & _).
  rewrite length_take. lia.
Qed.

(** Otherwise it returns what is left, however little. *)
Lemma _read_short (n : nat) (s : string) :
  s <> EmptyString -> String.length s < n -> _read n s = Ok (s, EmptyString).
Proof.
  intros Hs Hn. apply _read_Ok.
  assert (Ht : forall m t, String.length t <= m -> take m t = t /\ drop m t = EmptyString).
  { induction m as [|m IH]; intros [|c t] Hl; simpl in *; auto; try lia.
    destruct (IH t ltac:(lia)) as [-> ->]. auto. }
  destruct (Ht n s ltac:(lia)) as [-> ->]. auto.
Qed.

(** C3. [_read] only rejects an empty result: at the end of the stream a read
    of four bytes returns the two that are left.  A stream cut inside an int,
    long, double, date or a length prefix then ends in [struct.error]; cut
    inside the version it ends in 'unrecognized version'; cut inside a
    character, in [UnicodeDecodeError]; and the binary decoder returns the
    shortened run as a value. *)
Theorem C3_short_read_is_not_end_of_stream :
  _read 4 (bytes [0; 0]%N) = Ok (bytes [0; 0]%N, EmptyString)
  /\ parse_string ("r" ++ version_1_0 ++ "I" ++ bytes [0; 0]%N) = Raise StructError
  /\ parse_string ("r" ++ version_1_0 ++ "L" ++ bytes [0; 0; 0]%N) = Raise StructError
  /\ parse_string ("r" ++ version_1_0 ++ "D" ++ bytes [0; 0; 0]%N) = Raise StructError
  /\ parse_string ("r" ++ version_1_0 ++ "d" ++ bytes [0; 0; 0]%N) = Raise StructError
  /\ parse_string ("c" ++ version_1_0 ++ "m" ++ bytes [0]%N) = Raise StructError
  /\ parse_string ("c" ++ bytes [1]%N) = Raise (ParseError UnsupportedVersion)
  /\ parse_string ("r" ++ version_1_0 ++ "S" ++ bytes [0; 1; 226; 130]%N)
     = Raise UnicodeDecodeError
  /\ _read_binary (bytes [0; 5]%N ++ "ab") = Ok (VBinary "ab", EmptyString).
Proof.
  repeat split;
    first [ apply (parse_string_fuel_raise 5); reflexivity | reflexivity ].
Qed.

(** ** The value of a reply *)

(** A reply whose value is true in a condition accepts neither a further
    value nor a fault. *)
Lemma reply_truthy_value_is_final (fuel : nat) (hs : list (value * value))
    (val : value) (c : ascii) (s : stream) :
  truthy val = true ->
  c <> "c"%char -> c <> "r"%char -> c <> "H"%char -> c <> "m"%char ->
  c <> "z"%char ->
  loop_body fuel (Some (Reply hs val)) (String c s)
  = Raise (ParseError IllegalExtraValue).
Proof.
  intros Ht Hc Hr HH Hm Hz.
  assert (E : forall d, c <> d -> (String c EmptyString =? String d EmptyString) = false)
    by (intros d Hd; apply String.eqb_neq; congruence).
  unfold loop_body. erewrite bind_run by apply _read_one_cons.
  rewrite (E _ Hc), (E _ Hr), (E _ HH), (E _ Hm), (E _ Hz), Ht.
  destruct (String c EmptyString =? "f"); reflexivity.
Qed.

(** C4. The guard of the reply value tests the truth value of the value set
    so far, so a value that is false in a condition (False, 0, an empty
    string, an empty list, ...) is silently replaced by the next value or by
    a fault. *)
Theorem C4_falsy_reply_value_is_overwritten :
  parse_string ("r" ++ version_1_0 ++ "F" ++ "T" ++ "z")
  = Ok (Some (Reply [] (VBool true)))
  /\ parse_string ("r" ++ version_1_0 ++ "I" ++ bytes [0; 0; 0; 0]%N
                       ++ "I" ++ bytes [0; 0; 0; 7]%N ++ "z")
     = Ok (Some (Reply [] (VInt 7)))
  /\ parse_string ("r" ++ version_1_0 ++ "S" ++ bytes [0; 0]%N ++ "V" ++ "z" ++ "T" ++ "z")
     = Ok (Some (Reply [] (VBool true)))
  /\ parse_string ("r" ++ version_1_0 ++ "F" ++ "f"
                       ++ "S" ++ bytes [0; 1]%N ++ "a" ++ "N"
                       ++ "S" ++ bytes [0; 1]%N ++ "b" ++ "N"
                       ++ "S" ++ bytes [0; 1]%N ++ "c" ++ "N" ++ "z")
     = Ok (Some (Reply [] (VFault [(VUnicode [97%N], VNone);
                                   (VUnicode [98%N], VNone);
                                   (VUnicode [99%N], VNone)])))
  /\ parse_string ("r" ++ version_1_0 ++ "T" ++ "F" ++ "z")
     = Raise (ParseError IllegalExtraValue).
Proof.
  repeat split;
    first [ apply (parse_string_fuel 8 _ _ EmptyString); reflexivity
          | apply (parse_string_fuel_raise 8); reflexivity ].
Qed.

(** ** Dates *)

(** The timestamp handed to [fromtimestamp] is the millisecond count divided
    by 1000 with integer (floor) division. *)
Lemma _read_date_floor (payload rest : string) (v : value) (s' : stream) :
  String.length payload = 8 ->
  _read_date (payload ++ rest) = Ok (v, s') ->
  v = VDate (to_signed 64 (be_uint 0 payload) / 1000) /\ s' = rest.
Proof.
  intros Hlen H. unfold _read_date in H.
  assert (Hr : _read 8 (payload ++ rest) = Ok (payload, rest)).
  { rewrite <- Hlen. apply _read_app. intros ->. discriminate Hlen. }
  erewrite bind_run in H by exact Hr.
  unfold unpack_q in H. rewrite Hlen in H. cbn [Nat.eqb] in H.
  erewrite bind_run in H by reflexivity.
  unfold fromtimestamp in H. inv_run. subst. auto.
Qed.

(** C8. The milliseconds of a date are lost: the payload 1 (one millisecond
    after the epoch) decodes to the epoch itself, 1999 to one second, and -1
    to one second before the epoch. *)
Theorem C8_date_drops_milliseconds :
  parse_string ("r" ++ version_1_0 ++ "d" ++ bytes [0; 0; 0; 0; 0; 0; 0; 1]%N ++ "z")
  = Ok (Some (Reply [] (VDate 0)))
  /\ instant_ms (VDate 0) = Some 0%Z
  /\ _read_date (bytes [0; 0; 0; 0; 0; 0; 7; 207]%N) = Ok (VDate 1, EmptyString)
  /\ instant_ms (VDate 1) = Some 1000%Z
  /\ _read_date (bytes [255; 255; 255; 255; 255; 255; 255; 255]%N)
     = Ok (VDate (-1), EmptyString)
  /\ instant_ms (VDate (-1)) = Some (-1000)%Z.
Proof.
  repeat split;
    first [ apply (parse_string_fuel 5 _ _ EmptyString); reflexivity | reflexivity ].
Qed.

(** * Further properties of the parser *)

(** ** What is read is a prefix of the stream *)

Lemma suffix_refl (s : stream) : suffix s s.
Proof. now exists EmptyString. Qed.

Lemma append_assoc (a b c : string) : (a ++ b) ++ c = a ++ (b ++ c).
Proof. induction a as [|x a IH]; simpl; [reflexivity|now rewrite IH]. Qed.

Lemma suffix_trans (s2 s1 s0 : stream) : suffix s2 s1 -> suffix s1 s0 -> suffix s2 s0.
Proof.
  intros [p ->] [q ->]. exists (q ++ p). now rewrite append_assoc.
Qed.

Lemma suffix_length (s' s : stream) :
  suffix s' s -> String.length s' <= String.length s.
Proof. intros [p ->]. rewrite length_app. lia. Qed.

Lemma take_drop (n : nat) (s : string) : take n s ++ drop n s = s.
Proof.
  revert s; induction n as [|n IH]; intros [|c s]; simpl; auto.
  now rewrite IH.
Qed.

Lemma _read_split (n : nat) (s r s' : string) :
  _read n s = Ok (r, s') -> s = r ++ s'.
Proof.
  intros H. apply _read_Ok in H. destruct H as (-> & -> & _).
  symmetry. apply take_drop.
Qed.

Lemma triple_read_suffix (P : Prop) (n : nat) (s : stream) :
  triple P (_read n) s (fun _ s' => suffix s' s).
Proof.
  unfold triple. destruct (_read n s) as [[r s1]| |] eqn:E; auto.
  - exists r. now apply (_read_split n).
  - destruct (_read_cases n s) as [H|H]; rewrite H in E; discriminate.
Qed.

Lemma triple_suffix_bind {A B} (P : Prop) (m : M A) (k : A -> M B)
    (s s0 : stream) (Q : B -> stream -> Prop) :
  triple P m s (fun _ s' => suffix s' s0) ->
  (forall a s', suffix s' s0 -> triple P (k a) s' Q) ->
  triple P (bind m k) s Q.
Proof. intros Hm Hk. eapply triple_bind; [exact Hm|]. exact Hk. Qed.

Create HintDb suffix discriminated.

(** One step of symbolic execution of a [triple] goal whose postcondition
    says that the remaining stream is a suffix of the stream [o] the run began
    with; the context holds [suffix s o] for the current stream [s]. *)
Ltac sstep :=
  lazymatch goal with
  | |- triple _ (bind _ _) ?s (fun _ s' => suffix s' ?o) =>
      first [ apply triple_bind_pure; [ solve [auto with pure] | intros ? ]
            | apply (triple_suffix_bind _ _ _ s o); [ | intros ? ? ? ] ]
  | |- triple _ (ret _) _ _ => apply triple_ret; assumption
  | |- triple _ (raise _) _ _ => apply triple_raise
  | |- triple _ (out_of_fuel) _ _ => apply triple_out; tauto
  | |- triple _ (if ?b then _ else _) _ _ => destruct b
  | |- triple _ (match ?x with _ => _ end) _ _ => destruct x
  | |- triple _ _ ?s (fun _ s' => suffix s' ?o) =>
      first [ apply triple_pure; [ solve [auto with pure] | intros; assumption ]
            | eapply triple_weaken;
              [ first [ apply triple_read_suffix | solve [eauto with suffix] ]
              | exact (fun H => H)
              | cbv beta; intros ? ? ?; eapply suffix_trans; eassumption ] ]
  end.

Lemma string_loop_suffix (len : nat) :
  forall acc s,
    triple False (string_loop len acc) s (fun _ s' => suffix s' s).
Proof.
  induction len as [|len IH]; intros acc s; cbn [string_loop];
    pose proof (suffix_refl s); repeat sstep.
Qed.
#[local] Hint Resolve string_loop_suffix : suffix.

Lemma _read_string_suffix (s : stream) :
  triple False _read_string s (fun _ s' => suffix s' s).
Proof. unfold _read_string. pose proof (suffix_refl s). repeat sstep. Qed.

Lemma _read_binary_suffix (s : stream) :
  triple False _read_binary s (fun _ s' => suffix s' s).
Proof. unfold _read_binary. pose proof (suffix_refl s). repeat sstep. Qed.

Lemma _read_date_suffix (s : stream) :
  triple False _read_date s (fun _ s' => suffix s' s).
Proof. unfold _read_date. pose proof (suffix_refl s). repeat sstep. Qed.

#[local] Hint Resolve _read_string_suffix _read_binary_suffix _read_date_suffix
  : suffix.

Lemma decoders_suffix (f : nat) :
  (forall code s,
      triple False (_read_object f code) s (fun _ s' => suffix s' s)) /\
  (forall code ms s,
      triple False (list_loop f code ms) s (fun _ s' => suffix s' s)) /\
  (forall cast code fs s,
      triple False (map_loop f cast code fs) s (fun _ s' => suffix s' s)).
Proof.
  induction f as [|f (IHo & IHl & IHm)].
  - repeat split; intros; apply triple_out; tauto.
  - repeat split; intros; cbn [_read_object list_loop map_loop];
      unfold _read_remote_with, _read_list_with, _read_map_with,
        _read_keyval_with;
      pose proof (suffix_refl s); repeat sstep.
Qed.

Lemma _read_object_suffix (f : nat) (code : string) (s : stream) :
  triple False (_read_object f code) s (fun _ s' => suffix s' s).
Proof. apply decoders_suffix. Qed.
#[local] Hint Resolve _read_object_suffix : suffix.

Lemma _read_fault_suffix (f : nat) (s : stream) :
  triple False (_read_fault f) s (fun _ s' => suffix s' s).
Proof.
  unfold _read_fault, _read_keyval, _read_keyval_with.
  pose proof (suffix_refl s). repeat sstep.
Qed.
#[local] Hint Resolve _read_fault_suffix : suffix.

Lemma loop_body_suffix (f : nat) (r : option envelope) (s : stream) :
  triple False (loop_body f r) s (fun _ s' => suffix s' s).
Proof.
  unfold loop_body, _read_keyval, _read_keyval_with.
  pose proof (suffix_refl s). repeat sstep.
Qed.

(** X1. [_read n] fails with 'unexpected end of stream' exactly when no byte
    is requested or none is left; otherwise it returns the first
    [min n (len s)] bytes of the stream and leaves the rest. *)
Theorem _read_fails_or_returns_prefix (n : nat) (s : stream) :
  ((n = 0 \/ s = EmptyString) /\
   _read n s = Raise (ParseError UnexpectedEndOfStream))
  \/
  (0 < n /\ s <> EmptyString /\
   exists r s', _read n s = Ok (r, s') /\ s = r ++ s' /\
                String.length r = Nat.min n (String.length s)).
Proof.
  destruct n as [|n].
  - left. split; [now left|apply _read_zero].
  - destruct s as [|c s].
    + left. split; [now right|apply _read_empty].
    + right. split; [lia|]. split; [discriminate|].
      exists (take (S n) (String c s)), (drop (S n) (String c s)).
      split; [|split].
      * apply _read_Ok. repeat split. discriminate.
      * symmetry. apply take_drop.
      * apply length_take.
Qed.

(** X2. [parse_string] terminates on every input: it returns an envelope or
    raises an exception, the recursion it needs being bounded by twice the
    length of the input. *)
Theorem parse_string_returns_or_raises (s : string) :
  (exists r, parse_string s = Ok r) \/ (exists e, parse_string s = Raise e).
Proof.
  unfold parse_string. pose proof (parse_stream_total s) as H.
  destruct (parse_stream s) as [[r s']|e|]; [left|right|contradiction];
    eexists; reflexivity.
Qed.

Lemma triple_False_Ok {A} (m : M A) (s : stream) (Q : A -> stream -> Prop)
    (a : A) (s' : stream) :
  triple False m s Q -> m s = Ok (a, s') -> Q a s'.
Proof. unfold triple. intros H E. rewrite E in H. exact H. Qed.

(** X3. Whatever the value decoder returns, it has read a prefix of the
    stream: the stream it leaves is the one it was given minus the bytes of
    the value. *)
Theorem value_decoder_reads_a_prefix (fuel : nat) (code : string)
    (s : stream) (v : value) (s' : stream) :
  _read_object fuel code s = Ok (v, s') -> exists p, s = p ++ s'.
Proof.
  intros H.
  exact (triple_False_Ok _ _ _ _ _ (_read_object_suffix fuel code s) H).
Qed.

(** A list of two integers followed by 'T'. *)
Lemma value_decoder_reads_a_prefix_witness :
  exists p,
    "I" ++ bytes [0; 0; 0; 1]%N ++ "I" ++ bytes [0; 0; 0; 2]%N ++ "z" ++ "T"
    = p ++ "T".
Proof.
  apply (value_decoder_reads_a_prefix
           5 "V"
           ("I" ++ bytes [0; 0; 0; 1]%N ++ "I" ++ bytes [0; 0; 0; 2]%N ++ "z" ++ "T")
           (VList [VInt 1; VInt 2]) "T").
  reflexivity.
Defined.

(** ** The loop of [parse_stream] *)

Lemma string_eqb_one (code : string) (c : ascii) :
  (code =? String c EmptyString) = true -> code = String c EmptyString.
Proof. apply String.eqb_eq. Qed.

(** The loop breaks on the tag 'z' only, with an envelope set. *)
Lemma loop_body_Break (f : nat) (r : option envelope) (s s' : stream) :
  loop_body f r s = Ok (Break, s') -> s = String "z" s' /\ r <> None.
Proof.
  unfold loop_body. intros H.
  apply bind_Ok in H. destruct H as (code & s0 & Hc & H).
  apply _read_one in Hc. destruct Hc as (c & -> & ->).
  inv_run; try discriminate;
    match goal with
    | Hz : (String c EmptyString =? "z") = true |- _ =>
        apply string_eqb_one in Hz; injection Hz as ->
    end; subst; split; [reflexivity|discriminate].
Qed.

Lemma parse_loop_stops_at_z (f : nat) :
  forall r s r' s',
    parse_loop f r s = Ok (r', s') -> suffix (String "z" s') s /\ r' <> None.
Proof.
  induction f as [|f IH]; intros r s r' s' H; [discriminate H|].
  cbn [parse_loop] in H.
  apply bind_Ok in H. destruct H as (fl & s1 & Hb & H).
  destruct fl as [r1|].
  - apply IH in H. destruct H as [Hs Hr]. split; [|exact Hr].
    eapply suffix_trans; [exact Hs|].
    exact (triple_False_Ok _ _ _ _ _ (loop_body_suffix f r s) Hb).
  - apply ret_Ok in H. destruct H as [<- <-].
    apply loop_body_Break in Hb. destruct Hb as [-> Hr].
    split; [apply suffix_refl|exact Hr].
Qed.

(** X4. A successful parse stops right behind the terminator 'z' of the
    message: the input is the bytes read, ending in 'z', followed by the
    stream that is left; what follows the message is not looked at. *)
Theorem parse_stream_stops_behind_terminator (s : stream)
    (r : option envelope) (s' : stream) :
  parse_stream s = Ok (r, s') -> exists p, s = p ++ "z" ++ s'.
Proof.
  unfold parse_stream. intros H.
  apply parse_loop_stops_at_z in H. exact (proj1 H).
Qed.

(** An empty call followed by the first bytes of another message. *)
Lemma parse_stream_stops_behind_terminator_witness :
  exists p, "c" ++ version_1_0 ++ "z" ++ "c" ++ version_1_0
            = p ++ "z" ++ "c" ++ version_1_0.
Proof.
  apply (parse_stream_stops_behind_terminator
           ("c" ++ version_1_0 ++ "z" ++ "c" ++ version_1_0)
           (Some new_Call) ("c" ++ version_1_0)).
  reflexivity.
Defined.

(** The first iteration: nothing but a header with the version 1.0 is
    accepted while no envelope is set. *)
Lemma loop_body_first (f : nat) (s : stream) (fl : flow) (s1 : stream) :
  loop_body f None s = Ok (fl, s1) ->
  (fl = Continue (Some new_Call) /\ s = "c" ++ version_1_0 ++ s1) \/
  (fl = Continue (Some new_Reply) /\ s = "r" ++ version_1_0 ++ s1).
Proof.
  unfold loop_body. intros H.
  apply bind_Ok in H. destruct H as (code & s0 & Hc & H).
  apply _read_one in Hc. destruct Hc as (c & -> & ->).
  cbn [is_set] in H.
  destruct (String c EmptyString =? "c") eqn:Ec;
    [|destruct (String c EmptyString =? "r") eqn:Er; [|discriminate H]].
  - apply string_eqb_one in Ec. injection Ec as ->.
    apply bind_Ok in H. destruct H as (version & s2 & Hv & H).
    destruct (String.eqb_spec version version_1_0) as [->|]; [|discriminate H].
    apply ret_Ok in H. destruct H as [<- <-].
    apply _read_split in Hv. left. split; [reflexivity|now rewrite Hv].
  - apply string_eqb_one in Er. injection Er as ->.
    apply bind_Ok in H. destruct H as (version & s2 & Hv & H).
    destruct (String.eqb_spec version version_1_0) as [->|]; [|discriminate H].
    apply ret_Ok in H. destruct H as [<- <-].
    apply _read_split in Hv. right. split; [reflexivity|now rewrite Hv].
Qed.

(** Later iterations never change the kind of the envelope. *)
Lemma loop_body_keeps_kind (f : nat) (env : envelope) (s : stream)
    (r' : option envelope) (s' : stream) :
  loop_body f (Some env) s = Ok (Continue r', s') ->
  is_call r' = is_call (Some env) /\ is_reply r' = is_reply (Some env).
Proof.
  unfold loop_body. cbn [is_set]. intros H.
  destruct env; inv_run; subst;
    match goal with
    | Hc : Continue _ = Continue _ |- _ => injection Hc as <-
    | Hc : Break = Continue _ |- _ => discriminate Hc
    end; split; reflexivity.
Qed.

(** A property of the envelope that every iteration keeps holds of the
    result of the loop. *)
Lemma parse_loop_invariant (I : option envelope -> Prop) :
  (forall f r s r' s',
      I r -> loop_body f r s = Ok (Continue r', s') -> I r') ->
  forall f r s r' s', I r -> parse_loop f r s = Ok (r', s') -> I r'.
Proof.
  intros Hstep. induction f as [|f IH]; intros r s r' s' Hr H;
    [discriminate H|].
  cbn [parse_loop] in H.
  apply bind_Ok in H. destruct H as (fl & s1 & Hb & H).
  destruct fl as [r1|].
  - eapply IH; [|exact H]. eapply Hstep; eassumption.
  - apply ret_Ok in H. destruct H as [<- _]. exact Hr.
Qed.

Lemma parse_loop_keeps_kind (f : nat) (env : envelope) (s : stream)
    (r' : option envelope) (s' : stream) :
  parse_loop f (Some env) s = Ok (r', s') ->
  is_call r' = is_call (Some env) /\ is_reply r' = is_reply (Some env).
Proof.
  apply (parse_loop_invariant
           (fun r => is_call r = is_call (Some env) /\
                     is_reply r = is_reply (Some env))); [|auto].
  intros f0 [e|] s0 r1 s1 [Hc Hr] Hb.
  - apply loop_body_keeps_kind in Hb. destruct Hb as [-> ->]. auto.
  - destruct env; discriminate.
Qed.

(** X5. A message that parses begins with its header and the version 1.0:
    'c', 1, 0 when the result is a [Call], 'r', 1, 0 when it is a [Reply];
    the result is never [None]. *)
Theorem parse_stream_header_gives_kind (s : stream) (r : option envelope)
    (s' : stream) :
  parse_stream s = Ok (r, s') ->
  (is_call r = true /\ exists body, s = "c" ++ version_1_0 ++ body) \/
  (is_reply r = true /\ exists body, s = "r" ++ version_1_0 ++ body).
Proof.
  unfold parse_stream. rewrite Nat.add_1_r. cbn [parse_loop]. intros H.
  apply bind_Ok in H. destruct H as (fl & s1 & Hb & H).
  apply loop_body_first in Hb. destruct Hb as [[-> ->]|[-> ->]].
  - left. apply parse_loop_keeps_kind in H. destruct H as [-> _].
    split; [reflexivity|now exists s1].
  - right. apply parse_loop_keeps_kind in H. destruct H as [_ ->].
    split; [reflexivity|now exists s1].
Qed.

(** A reply holding the value true. *)
Lemma parse_stream_header_gives_kind_witness :
  (is_call (Some (Reply [] (VBool true))) = true /\
   exists body, "r" ++ version_1_0 ++ "T" ++ "z" = "c" ++ version_1_0 ++ body) \/
  (is_reply (Some (Reply [] (VBool true))) = true /\
   exists body, "r" ++ version_1_0 ++ "T" ++ "z" = "r" ++ version_1_0 ++ body).
Proof.
  apply (parse_stream_header_gives_kind
           ("r" ++ version_1_0 ++ "T" ++ "z")
           (Some (Reply [] (VBool true))) EmptyString).
  reflexivity.
Defined.

Lemma one_eqb_false (c d : ascii) :
  c <> d -> (String c EmptyString =? String d EmptyString) = false.
Proof. intros H. apply String.eqb_neq. congruence. Qed.

Lemma parse_loop_raise (f : nat) (r : option envelope) (s : stream) (e : exn) :
  loop_body f r s = Raise e -> parse_loop (S f) r s = Raise e.
Proof. intros H. cbn [parse_loop]. unfold bind. now rewrite H. Qed.

(** X6. How [parse_string] treats the first bytes of its input: nothing at
    all is 'unexpected end of stream'; a first byte other than 'c' and 'r' is
    an 'invalid message marker'; a header with nothing behind it is
    'unexpected end of stream'; a header followed by anything but the bytes 1
    and 0 is an 'unrecognized version'. *)
Theorem parse_string_header_cases (s : string) :
  (s = EmptyString /\
   parse_string s = Raise (ParseError UnexpectedEndOfStream))
  \/ (exists c rest, s = String c rest /\ c <> "c"%char /\ c <> "r"%char /\
                     parse_string s = Raise (ParseError InvalidMarker))
  \/ (exists h rest,
         (h = "c" \/ h = "r") /\ s = h ++ rest /\
         ((rest = EmptyString /\
           parse_string s = Raise (ParseError UnexpectedEndOfStream))
          \/ (rest <> EmptyString /\
              (forall body, rest <> version_1_0 ++ body) /\
              parse_string s = Raise (ParseError UnsupportedVersion))
          \/ (exists body, rest = version_1_0 ++ body))).
Proof.
  destruct s as [|c rest].
  - left. split; [reflexivity|]. now apply (parse_string_fuel_raise 1).
  - right.
    assert (Hhdr : forall h, h = "c" \/ h = "r" ->
              (rest = EmptyString /\
               parse_string (h ++ rest) = Raise (ParseError UnexpectedEndOfStream))
              \/ (rest <> EmptyString /\
                  (forall body, rest <> version_1_0 ++ body) /\
                  parse_string (h ++ rest) = Raise (ParseError UnsupportedVersion))
              \/ (exists body, rest = version_1_0 ++ body)).
    { intros h Hh. destruct rest as [|a rest'].
      - left. split; [reflexivity|].
        destruct Hh as [-> | ->]; now apply (parse_string_fuel_raise 1).
      - right.
        destruct (String.eqb_spec (take 2 (String a rest')) version_1_0)
          as [E|E].
        + right. exists (drop 2 (String a rest')).
          rewrite <- E. symmetry. apply take_drop.
        + left. split; [discriminate|]. split.
          * intros body Hb. apply E. rewrite Hb.
            exact (take_app version_1_0 body).
          * apply String.eqb_neq in E.
            destruct Hh as [-> | ->]; apply (parse_string_fuel_raise 1);
              apply parse_loop_raise; cbn [append]; unfold loop_body;
              (erewrite bind_run by apply _read_one_cons);
              cbn [String.eqb Ascii.eqb Bool.eqb is_set];
              (erewrite bind_run
                 by (apply _read_Ok; repeat split; discriminate));
              rewrite E; reflexivity. }
    destruct (Ascii.eqb_spec c "c"%char) as [->|Hc].
    { right. exists "c", rest. split; [now left|]. split; [reflexivity|].
      apply (Hhdr "c"). now left. }
    destruct (Ascii.eqb_spec c "r"%char) as [->|Hr].
    { right. exists "r", rest. split; [now right|]. split; [reflexivity|].
      apply (Hhdr "r"). now right. }
    left. exists c, rest. repeat split; auto.
    apply (parse_string_fuel_raise 1). apply parse_loop_raise.
    unfold loop_body. erewrite bind_run by apply _read_one_cons.
    rewrite (one_eqb_false _ _ Hc), (one_eqb_false _ _ Hr). reflexivity.
Qed.

Lemma loop_body_fuel (f f' : nat) (r : option envelope) (s : stream)
    (x : flow * stream) :
  loop_body f r s = Ok x -> f <= f' -> loop_body f' r s = Ok x.
Proof.
  intros H Hle. rewrite (loop_body_mono f f' r Hle s); [exact H|].
  rewrite H. discriminate.
Qed.

Lemma loop_body_fuel_raise (f f' : nat) (r : option envelope) (s : stream)
    (e : exn) :
  loop_body f r s = Raise e -> f <= f' -> loop_body f' r s = Raise e.
Proof.
  intros H Hle. rewrite (loop_body_mono f f' r Hle s); [exact H|].
  rewrite H. discriminate.
Qed.

Lemma parse_loop_fuel (f f' : nat) (r : option envelope) (s : stream)
    (x : result (option envelope * stream)) :
  parse_loop f r s = x -> x <> OutOfFuel -> f <= f' -> parse_loop f' r s = x.
Proof.
  intros H Hx Hle. rewrite (parse_loop_mono f f' r Hle s); [exact H|].
  now rewrite H.
Qed.

Lemma parse_loop_step (f : nat) (r r1 : option envelope) (s s1 : stream) :
  loop_body f r s = Ok (Continue r1, s1) ->
  parse_loop (S f) r s = parse_loop f r1 s1.
Proof. intros H. cbn [parse_loop]. unfold bind. now rewrite H. Qed.

Lemma loop_body_z (f : nat) (env : envelope) (s : stream) :
  loop_body f (Some env) (String "z" s) = Ok (Break, s).
Proof. destruct env; reflexivity. Qed.

(** Iterations followed by the result [x] of the loop give [x]. *)
Lemma iterations_parse_loop (r : option envelope) (s : stream)
    (r1 : option envelope) (s1 : stream) :
  iterations r s r1 s1 ->
  forall f x, parse_loop f r1 s1 = x -> x <> OutOfFuel ->
              exists F, parse_loop F r s = x.
Proof.
  induction 1 as [r s|fuel r s r1 s1 r2 s2 Hb _ IH]; intros f x Hx Hne.
  - now exists f.
  - destruct (IH f x Hx Hne) as [F HF].
    exists (S (Nat.max fuel F)).
    rewrite (parse_loop_step _ _ r1 _ s1)
      by (apply (loop_body_fuel fuel); [exact Hb|lia]).
    apply (parse_loop_fuel F); [exact HF|exact Hne|lia].
Qed.

Lemma parse_loop_iterations (f : nat) :
  forall r s r' s',
    parse_loop f r s = Ok (r', s') -> iterations r s r' (String "z" s').
Proof.
  induction f as [|f IH]; intros r s r' s' H; [discriminate H|].
  cbn [parse_loop] in H.
  apply bind_Ok in H. destruct H as (fl & s1 & Hb & H).
  destruct fl as [r1|].
  - eapply iterations_more; [exact Hb|]. now apply IH.
  - apply ret_Ok in H. destruct H as [<- <-].
    apply loop_body_Break in Hb. destruct Hb as [-> _].
    apply iterations_none.
Qed.

(** [parse_stream] returns the envelope [r] and leaves [s'] exactly when
    iterations of its loop, none failing, lead from no envelope to [r] and to
    the terminator 'z' in front of [s']. *)
Theorem parse_stream_is_iterations_up_to_z (s : stream) (r : option envelope)
    (s' : stream) :
  parse_stream s = Ok (r, s') <->
  (r <> None /\ iterations None s r (String "z" s')).
Proof.
  split.
  - intros H. unfold parse_stream in H. split.
    + apply parse_loop_stops_at_z in H. exact (proj2 H).
    + eapply parse_loop_iterations. exact H.
  - intros [Hr Hit]. destruct r as [env|]; [|contradiction].
    destruct (iterations_parse_loop _ _ _ _ Hit 1 (Ok (Some env, s')))
      as [F HF].
    + cbn [parse_loop]. unfold bind. now rewrite loop_body_z.
    + discriminate.
    + apply (parse_stream_fuel F); [exact HF|discriminate].
Qed.

(** X7. An exception raised by an iteration of the loop, after any number of
    iterations that did not fail, is the outcome of [parse_string]: nothing is
    caught and no partial envelope is returned. *)
Theorem parse_string_raises_what_an_iteration_raises (s : stream)
    (r1 : option envelope) (s1 : stream) (fuel : nat) (e : exn) :
  iterations None s r1 s1 ->
  loop_body fuel r1 s1 = Raise e ->
  parse_string s = Raise e.
Proof.
  intros Hit Hb.
  destruct (iterations_parse_loop _ _ _ _ Hit (S fuel) (Raise e)) as [F HF].
  - now apply parse_loop_raise.
  - discriminate.
  - now apply (parse_string_fuel_raise F).
Qed.

(** A call with one argument, then an unknown tag. *)
Lemma parse_string_raises_what_an_iteration_raises_witness :
  parse_string ("c" ++ version_1_0 ++ "T" ++ "?") = Raise (ParseError UnknownMarker).
Proof.
  apply (parse_string_raises_what_an_iteration_raises
           ("c" ++ version_1_0 ++ "T" ++ "?")
           (Some (Call [] None [VBool true])) "?" 1).
  - apply (iterations_more 1 _ _ (Some new_Call) ("T" ++ "?")); [reflexivity|].
    apply (iterations_more 1 _ _ (Some (Call [] None [VBool true])) "?");
      [reflexivity|].
    apply iterations_none.
  - reflexivity.
Defined.

(** X8. After the header, the bytes 'c' and 'r' are headers again wherever
    the loop expects a tag, and fail with 'duplicate type header': a remote
    reference (tag 'r') can be an element of a list or a map but never an
    argument of a call or the value of a reply. *)
Theorem header_tag_after_header_is_duplicate (s : stream)
    (env : envelope) (c : ascii) (s1 : stream) :
  iterations None s (Some env) (String c s1) ->
  c = "c"%char \/ c = "r"%char ->
  parse_string s = Raise (ParseError DuplicateEnvelopeHeader).
Proof.
  intros Hit Hc.
  destruct (iterations_parse_loop _ _ _ _ Hit 1
              (Raise (ParseError DuplicateEnvelopeHeader))) as [F HF].
  - apply parse_loop_raise. destruct Hc as [-> | ->]; reflexivity.
  - discriminate.
  - now apply (parse_string_fuel_raise F).
Qed.

(** A call whose only argument would be a well-formed remote reference. *)
Lemma header_tag_after_header_witness :
  parse_string ("c" ++ version_1_0 ++ "r" ++ "S" ++ bytes [0; 1]%N ++ "u" ++ "z")
  = Raise (ParseError DuplicateEnvelopeHeader).
Proof.
  apply (header_tag_after_header_is_duplicate
           ("c" ++ version_1_0 ++ "r" ++ "S" ++ bytes [0; 1]%N ++ "u" ++ "z")
           new_Call "r"%char ("S" ++ bytes [0; 1]%N ++ "u" ++ "z")).
  - apply (iterations_more 0 _ _ (Some new_Call)
             ("r" ++ "S" ++ bytes [0; 1]%N ++ "u" ++ "z")); [reflexivity|].
    apply iterations_none.
  - now right.
Defined.

(** ** What a call and a reply hold *)

Lemma unpack_H_bound (r : string) (s : stream) (n : N) (s' : stream) :
  unpack_H r s = Ok (n, s') -> (n < 65536)%N.
Proof.
  unfold unpack_H.
  destruct r as [|a [|b [|c r]]]; try discriminate. cbn.
  intros H. apply ret_Ok in H. destruct H as [<- _].
  pose proof (N_ascii_bounded a). pose proof (N_ascii_bounded b). lia.
Qed.

Lemma _read_length (n : nat) (s r s' : string) :
  _read n s = Ok (r, s') -> 1 <= String.length r <= n.
Proof.
  intros H. apply _read_Ok in H. destruct H as (-> & _ & Hne).
  rewrite length_take in *. split; [|lia].
  destruct (take n s) eqn:E; [contradiction|].
  rewrite <- length_take, E. simpl. lia.
Qed.

Lemma loop_body_keeps_method_length (f : nat) (r : option envelope) (s : stream)
    (r' : option envelope) (s' : stream) :
  (forall hs name args,
      r = Some (Call hs (Some name) args) -> (1 <= N.of_nat (String.length name) <= 65535)%N) ->
  loop_body f r s = Ok (Continue r', s') ->
  forall hs name args,
    r' = Some (Call hs (Some name) args) -> (1 <= N.of_nat (String.length name) <= 65535)%N.
Proof.
  intros HI H. unfold loop_body in H.
  inv_run; subst;
    match goal with
    | Hc : Continue _ = Continue _ |- _ => injection Hc as <-
    | Hc : Break = Continue _ |- _ => discriminate Hc
    end; intros hs0 name0 args0 E; try discriminate E;
    injection E; intros; subst;
    try (eapply HI; reflexivity).
  match goal with
  | Hu : unpack_H _ _ = Ok (?n, _), Hr : _read (N.to_nat ?n) _ = Ok _ |- _ =>
      apply unpack_H_bound in Hu; apply _read_length in Hr; lia
  end.
Qed.

(** X9. The method name of a [Call] returned by [parse_stream] is either
    absent or a string of 1 to 65535 bytes: an empty method name is never
    returned. *)
Theorem parsed_method_name_length (s : stream) (hs : list (value * value))
    (name : string) (args : list value) (s' : stream) :
  parse_stream s = Ok (Some (Call hs (Some name) args), s') ->
  (1 <= N.of_nat (String.length name) <= 65535)%N.
Proof.
  unfold parse_stream. intros H.
  refine (parse_loop_invariant
            (fun r => forall hs name args,
                 r = Some (Call hs (Some name) args) ->
                 (1 <= N.of_nat (String.length name) <= 65535)%N)
            _ _ None s _ s' _ H hs name args eq_refl).
  - intros f r s0 r' s1 HI Hb. eapply loop_body_keeps_method_length; eassumption.
  - discriminate.
Qed.

(** The call [ping()]. *)
Lemma parsed_method_name_length_witness :
  (1 <= N.of_nat (String.length "ping") <= 65535)%N.
Proof.
  apply (parsed_method_name_length
           ("c" ++ version_1_0 ++ "m" ++ bytes [0; 4]%N ++ "ping" ++ "z")
           [] "ping" [] EmptyString).
  reflexivity.
Defined.

Lemma loop_body_value_call (f : nat) (hs : list (value * value))
    (m : option string) (args : list value) (c : ascii) (s : stream) :
  value_tag c ->
  loop_body f (Some (Call hs m args)) (String c s)
  = (v <- _read_object f (String c EmptyString) ;;
     ret (Continue (Some (Call hs m (args ++ [v])%list)))) s.
Proof.
  intros (Hc & Hr & HH & Hm & Hf & Hz).
  unfold loop_body. erewrite bind_run by apply _read_one_cons.
  now rewrite (one_eqb_false _ _ Hc), (one_eqb_false _ _ Hr),
    (one_eqb_false _ _ HH), (one_eqb_false _ _ Hm), (one_eqb_false _ _ Hf),
    (one_eqb_false _ _ Hz).
Qed.

Lemma loop_body_value_reply (f : nat) (hs : list (value * value))
    (val : value) (c : ascii) (s : stream) :
  value_tag c -> truthy val = false ->
  loop_body f (Some (Reply hs val)) (String c s)
  = (v <- _read_object f (String c EmptyString) ;;
     ret (Continue (Some (Reply hs v)))) s.
Proof.
  intros (Hc & Hr & HH & Hm & Hf & Hz) Ht.
  unfold loop_body. erewrite bind_run by apply _read_one_cons.
  now rewrite (one_eqb_false _ _ Hc), (one_eqb_false _ _ Hr),
    (one_eqb_false _ _ HH), (one_eqb_false _ _ Hm), (one_eqb_false _ _ Hf),
    (one_eqb_false _ _ Hz), Ht.
Qed.

Lemma arguments_parse_loop (s : stream) (vs : list value) (s' : stream) :
  arguments s vs s' ->
  forall hs m args,
  exists f, parse_loop f (Some (Call hs m args)) s
            = Ok (Some (Call hs m (args ++ vs)%list), s').
Proof.
  induction 1 as [s|c s v s1 vs s2 Hc [f1 Hv] _ IH]; intros hs m args.
  - exists 1. cbn [parse_loop]. unfold bind. rewrite loop_body_z.
    now rewrite app_nil_r.
  - destruct (IH hs m (args ++ [v])%list) as [f2 H2].
    exists (S (Nat.max f1 f2)).
    rewrite (parse_loop_step _ _ (Some (Call hs m (args ++ [v])%list)) _ s1).
    + rewrite <- app_assoc in H2.
      apply (parse_loop_fuel f2); [exact H2|discriminate|lia].
    + rewrite loop_body_value_call by exact Hc.
      erewrite bind_run; [reflexivity|].
      apply (_read_object_fuel f1); [exact Hv|lia].
Qed.

(** X10. The arguments of a call are the top-level values of the message in
    the order they stand in it: a call header followed by the values [vs] and
    the terminator parses to a [Call] without headers and method whose
    arguments are [vs]. *)
Theorem call_arguments_in_order (body : stream) (vs : list value) (s' : stream) :
  arguments body vs s' ->
  parse_stream ("c" ++ version_1_0 ++ body) = Ok (Some (Call [] None vs), s').
Proof.
  intros H. destruct (arguments_parse_loop _ _ _ H [] None []) as [f Hf].
  apply (parse_stream_fuel (S f)); [|discriminate].
  rewrite (parse_loop_step _ _ (Some new_Call) _ body) by reflexivity.
  exact Hf.
Qed.

(** The arguments 1 and true. *)
Lemma call_arguments_in_order_witness :
  parse_stream ("c" ++ version_1_0 ++ "I" ++ bytes [0; 0; 0; 1]%N ++ "T" ++ "z")
  = Ok (Some (Call [] None [VInt 1; VBool true]), EmptyString).
Proof.
  apply (call_arguments_in_order
           ("I" ++ bytes [0; 0; 0; 1]%N ++ "T" ++ "z")
           [VInt 1; VBool true] EmptyString).
  apply (arguments_next "I" (bytes [0; 0; 0; 1]%N ++ "T" ++ "z")
           (VInt 1) ("T" ++ "z")).
  - repeat split; discriminate.
  - exists 1. reflexivity.
  - apply (arguments_next "T" "z" (VBool true) "z").
    + repeat split; discriminate.
    + exists 1. reflexivity.
    + apply arguments_end.
Defined.

(** X11. A reply header, one top-level value and the terminator parse to a
    [Reply] without headers holding that value. *)
Theorem reply_value_is_the_decoded_value (c : ascii) (s : stream) (v : value)
    (s' : stream) :
  value_tag c ->
  decodes (String c EmptyString) s v (String "z" s') ->
  parse_stream ("r" ++ version_1_0 ++ String c s) = Ok (Some (Reply [] v), s').
Proof.
  intros Hc [f Hv].
  apply (parse_stream_fuel (S (S (S f)))); [|discriminate].
  rewrite (parse_loop_step _ _ (Some new_Reply) _ (String c s)) by reflexivity.
  rewrite (parse_loop_step _ _ (Some (Reply [] v)) _ (String "z" s')).
  - cbn [parse_loop]. unfold bind. now rewrite loop_body_z.
  - unfold new_Reply. rewrite loop_body_value_reply by (auto; reflexivity).
    erewrite bind_run; [reflexivity|].
    apply (_read_object_fuel f); [exact Hv|lia].
Qed.

(** The reply 7. *)
Lemma reply_value_is_the_decoded_value_witness :
  parse_stream ("r" ++ version_1_0 ++ "I" ++ bytes [0; 0; 0; 7]%N ++ "z")
  = Ok (Some (Reply [] (VInt 7)), EmptyString).
Proof.
  apply (reply_value_is_the_decoded_value "I" (bytes [0; 0; 0; 7]%N ++ "z")).
  - repeat split; discriminate.
  - exists 1. reflexivity.
Defined.

(** ** Lists without a length *)

Lemma _read_list_no_length_tag (fuel : nat) (pre : string) (c : ascii)
    (s : string) :
  type_prefix pre -> c <> "l"%char -> (pre = EmptyString -> c <> "t"%char) ->
  _read_list fuel (pre ++ String c s)
  = (ms <- list_loop fuel (String c EmptyString) [] ;; ret (VList ms)) s.
Proof.
  intros Hpre Hl Ht.
  destruct Hpre as [->|(hi & lo & name & -> & Hlen & Hname)].
  - unfold _read_list, _read_list_with.
    cbn [append]. erewrite bind_run by apply _read_one_cons.
    rewrite (one_eqb_false _ _ (Ht eq_refl)).
    erewrite bind_run by reflexivity.
    rewrite (one_eqb_false _ _ Hl).
    erewrite bind_run by reflexivity. reflexivity.
  - unfold _read_list, _read_list_with.
    cbn [append]. erewrite bind_run by apply _read_one_cons.
    cbn [String.eqb Ascii.eqb Bool.eqb].
    assert (Hname' : _read (N.to_nat (be_uint 0 (String hi (String lo EmptyString))))
                       (name ++ String c s)
                     = Ok (name, String c s)).
    { cbn [be_uint]. rewrite N.mul_0_l, N.add_0_l, <- Hlen.
      now apply _read_app. }
    erewrite bind_run;
      [|erewrite bind_run by reflexivity;
        erewrite bind_run by reflexivity;
        erewrite bind_run by exact Hname';
        apply _read_one_cons].
    rewrite (one_eqb_false _ _ Hl).
    erewrite bind_run by reflexivity. reflexivity.
Qed.

(** X12. A list without the 'l' tag (after an optional type name, which is
    dropped) decodes to a Python list, not a tuple; its members are exactly
    the values found, in order, up to the terminator 'z'. *)
Theorem list_without_length_is_list_of_members :
  forall pre c s v s',
    type_prefix pre -> c <> "l"%char -> (pre = EmptyString -> c <> "t"%char) ->
    ((exists fuel, _read_list fuel (pre ++ String c s) = Ok (v, s'))
     <-> (exists ms, v = VList ms /\ members (String c s) ms s')).
Proof.
  intros pre c s v s' Hpre Hl Ht. split.
  - intros [fuel H]. rewrite _read_list_no_length_tag in H by assumption.
    apply bind_Ok in H. destruct H as (ms & s2 & Hloop & H).
    apply ret_Ok in H. destruct H as [<- <-].
    apply list_loop_members in Hloop. destruct Hloop as (vs & -> & Hm).
    now exists vs.
  - intros (ms & -> & Hm).
    destruct (members_list_loop _ _ _ Hm) as [f Hf].
    exists f. rewrite _read_list_no_length_tag by assumption.
    unfold bind. now rewrite (Hf []).
Qed.

(** A typed list of one element. *)
Lemma list_without_length_witness :
  exists ms, VList [VBool true] = VList ms /\ members ("T" ++ "z") ms EmptyString.
Proof.
  apply (proj1 (list_without_length_is_list_of_members
                  ("t" ++ String (ascii_of_N 0) (String (ascii_of_N 3) "int"))
                  "T" "z" (VList [VBool true]) EmptyString
                  ltac:(right; exists (ascii_of_N 0), (ascii_of_N 3), "int";
                        repeat split; discriminate)
                  ltac:(discriminate) ltac:(discriminate))).
  exists 3. reflexivity.
Defined.

(** ** Maps *)

Lemma map_store_Ok (cast : option string) (fs : list (value * value))
    (k v : value) (s : stream) :
  storable cast k = true -> map_store cast fs k v s = Ok ((fs ++ [(k, v)])%list, s).
Proof.
  unfold storable, map_store.
  destruct (match cast with Some c => truthy_str c | None => false end).
  - intros H. unfold bind, py_str. destruct k; try reflexivity.
    now rewrite H.
  - intros H. unfold dict_set. now rewrite H.
Qed.

Lemma map_store_inv (cast : option string) (fs fs' : list (value * value))
    (k v : value) (s s' : stream) :
  map_store cast fs k v s = Ok (fs', s') ->
  fs' = (fs ++ [(k, v)])%list /\ s' = s /\ storable cast k = true.
Proof.
  unfold storable, map_store.
  destruct (match cast with Some c => truthy_str c | None => false end).
  - unfold bind, py_str. destruct k; try (intros [= <- <-]; now auto).
    destruct (is_ascii cps); [intros [= <- <-]; now auto|discriminate].
  - unfold dict_set. destruct (hashable k); [|discriminate].
    intros [= <- <-]. auto.
Qed.

Lemma _read_keyval_with_code (ro : string -> M value) (c : ascii) :
  _read_keyval_with ro (Some (String c EmptyString))
  = (key <- ro (String c EmptyString) ;;
     code' <- _read 1 ;;
     v <- ro code' ;;
     ret (key, v)).
Proof. reflexivity. Qed.

Lemma map_loop_entries (f : nat) (cast : option string) :
  forall c s acc fs s',
    map_loop f cast (String c EmptyString) acc s = Ok (fs, s') ->
    exists kvs, fs = (acc ++ kvs)%list /\ entries (String c s) kvs s' /\
                Forall (fun kv => storable cast (fst kv) = true) kvs.
Proof.
  induction f as [|f IH]; intros c s acc fs s' H; [discriminate H|].
  cbn [map_loop] in H.
  destruct (String.eqb_spec (String c EmptyString) "z") as [E|E]; cbn [negb] in H.
  - injection E as ->. apply ret_Ok in H. destruct H as [<- <-].
    exists []. rewrite app_nil_r. repeat split; [apply entries_end|constructor].
  - rewrite _read_keyval_with_code in H.
    apply bind_Ok in H. destruct H as ([k v] & s3 & Hkv & H).
    apply bind_Ok in Hkv. destruct Hkv as (k0 & s1 & Hk & Hkv).
    apply bind_Ok in Hkv. destruct Hkv as (code' & s2 & Hc & Hkv).
    apply bind_Ok in Hkv. destruct Hkv as (v0 & s3' & Hv & Hkv).
    apply ret_Ok in Hkv. destruct Hkv as [[= <- <-] <-].
    apply _read_one in Hc. destruct Hc as (c' & -> & ->).
    apply bind_Ok in H. destruct H as (fs1 & s4 & Hst & H).
    apply map_store_inv in Hst. destruct Hst as (-> & -> & Hok).
    apply bind_Ok in H. destruct H as (code2 & s5 & Hc2 & H).
    apply _read_one in Hc2. destruct Hc2 as (c2 & -> & ->).
    apply IH in H. destruct H as (kvs & -> & He & Hall).
    exists ((k0, v0) :: kvs). rewrite <- app_assoc. repeat split.
    + apply entries_next with (c' := c') (s1 := s2) (s2 := String c2 s5); auto.
      * intros ->. now apply E.
      * now exists f.
      * now exists f.
    + constructor; assumption.
Qed.

Lemma entries_map_loop (cast : option string) (s : stream)
    (kvs : list (value * value)) (s' : stream) :
  entries s kvs s' ->
  Forall (fun kv => storable cast (fst kv) = true) kvs ->
  exists f, forall acc,
    match s with
    | String c s0 =>
        map_loop f cast (String c EmptyString) acc s0 = Ok ((acc ++ kvs)%list, s')
    | EmptyString => False
    end.
Proof.
  induction 1 as [s|c s k c' s1 v s2 kvs s3 Hc [f1 Hk] [f2 Hv] He IH];
    intros Hall.
  - exists 1. intros acc. cbn. now rewrite app_nil_r.
  - inversion Hall as [|? ? Hok Hall']; subst. cbn [fst] in Hok.
    destruct (IH Hall') as [f3 H3].
    exists (S (Nat.max f1 (Nat.max f2 f3))). intros acc. cbn [map_loop].
    rewrite (one_eqb_false _ _ Hc). cbn [negb].
    rewrite _read_keyval_with_code.
    erewrite bind_run;
      [|erewrite bind_run
          by (apply (_read_object_fuel f1); [exact Hk|lia]);
        erewrite bind_run by apply _read_one_cons;
        erewrite bind_run
          by (apply (_read_object_fuel f2); [exact Hv|lia]);
        reflexivity].
    cbv beta iota.
    erewrite bind_run by (apply map_store_Ok; exact Hok).
    destruct s2 as [|c2 s2]; [destruct (H3 [])|].
    erewrite bind_run by apply _read_one_cons.
    pose proof (H3 (acc ++ [(k, v)])%list) as H3'.
    assert (Hmono : forall F, f3 <= F ->
               map_loop F cast (String c2 EmptyString) (acc ++ [(k, v)])%list s2
               = map_loop f3 cast (String c2 EmptyString) (acc ++ [(k, v)])%list s2).
    { intros F HF. destruct (fuel_mono f3 F HF) as (_ & _ & Hm).
      apply Hm. rewrite H3'. discriminate. }
    rewrite Hmono by lia. rewrite <- app_assoc in H3'. exact H3'.
Qed.

Lemma _read_map_untyped (fuel : nat) (c : ascii) (s : string) :
  c <> "t"%char ->
  _read_map fuel (String c s)
  = (fields <- map_loop fuel None (String c EmptyString) [] ;;
     ret (VDict fields)) s.
Proof.
  intros Ht. unfold _read_map, _read_map_with.
  erewrite bind_run by apply _read_one_cons.
  rewrite (one_eqb_false _ _ Ht).
  erewrite bind_run by reflexivity. reflexivity.
Qed.

Lemma _read_map_typed (fuel : nat) (hi lo : ascii) (name s : string) :
  String.length name = N.to_nat (N_of_ascii hi * 256 + N_of_ascii lo) ->
  name <> EmptyString ->
  _read_map fuel ("t" ++ String hi (String lo name) ++ s)
  = (code <- _read 1 ;;
     fields <- map_loop fuel (Some name) code [] ;;
     ret (VMagic name fields)) s.
Proof.
  intros Hlen Hname. unfold _read_map, _read_map_with.
  cbn [append]. erewrite bind_run by apply _read_one_cons.
  cbn [String.eqb Ascii.eqb Bool.eqb].
  assert (Hname' : _read (N.to_nat (be_uint 0 (String hi (String lo EmptyString))))
                     (name ++ s)
                   = Ok (name, s)).
  { cbn [be_uint]. rewrite N.mul_0_l, N.add_0_l, <- Hlen.
    now apply _read_app. }
  assert (Ht : truthy_str name = true)
    by (destruct name; [contradiction|reflexivity]).
  unfold bind at 1. unfold bind at 1. unfold bind at 1.
  replace (_read 2 (String hi (String lo (name ++ s))))
    with (Ok (String hi (String lo EmptyString), name ++ s)) by reflexivity.
  unfold bind at 1. unfold unpack_H at 1. cbn [String.length Nat.eqb].
  unfold ret at 1. unfold bind at 1. rewrite Hname'.
  unfold bind. destruct (_read 1 s) as [[code s1]| |]; [|reflexivity..].
  unfold ret at 1.
  destruct (map_loop fuel (Some name) code [] s1) as [[fs s2]| |];
    [|reflexivity..].
  now rewrite Ht.
Qed.

(** X13. A map without a type name decodes to a [dict] built from exactly
    the key/value pairs found, in order, up to the terminator 'z'; it is
    returned if and only if every key is hashable (no list, no dict, no
    tuple holding one). *)
Theorem untyped_map_is_dict_of_entries :
  forall c s v s',
    c <> "t"%char ->
    ((exists fuel, _read_map fuel (String c s) = Ok (v, s'))
     <-> (exists kvs, v = VDict kvs /\ entries (String c s) kvs s' /\
                      Forall (fun kv => hashable (fst kv) = true) kvs)).
Proof.
  intros c s v s' Ht. split.
  - intros [fuel H]. rewrite _read_map_untyped in H by exact Ht.
    apply bind_Ok in H. destruct H as (fs & s2 & Hloop & H).
    apply ret_Ok in H. destruct H as [<- <-].
    apply map_loop_entries in Hloop. destruct Hloop as (kvs & -> & He & Hall).
    exists kvs. repeat split; assumption.
  - intros (kvs & -> & He & Hall).
    destruct (entries_map_loop None _ _ _ He Hall) as [f Hf].
    exists f. rewrite _read_map_untyped by exact Ht.
    unfold bind. now rewrite (Hf []).
Qed.

(** The map {1: true}. *)
Lemma untyped_map_witness :
  exists kvs, VDict [(VInt 1, VBool true)] = VDict kvs /\
              entries ("I" ++ bytes [0; 0; 0; 1]%N ++ "T" ++ "z") kvs EmptyString /\
              Forall (fun kv => hashable (fst kv) = true) kvs.
Proof.
  apply (proj1 (untyped_map_is_dict_of_entries
                  "I" (bytes [0; 0; 0; 1]%N ++ "T" ++ "z")
                  (VDict [(VInt 1, VBool true)]) EmptyString
                  ltac:(discriminate))).
  exists 3. reflexivity.
Defined.

(** X14. A map with a type name (of non-zero length) decodes to a [Magic]
    object carrying that name and exactly the key/value pairs found, in
    order, up to the terminator 'z'; it is returned if and only if no key is
    a text with a character outside ASCII.  Unhashable keys are accepted
    here. *)
Theorem typed_map_is_Magic_of_entries :
  forall hi lo name s v s',
    String.length name = N.to_nat (N_of_ascii hi * 256 + N_of_ascii lo) ->
    name <> EmptyString ->
    ((exists fuel,
         _read_map fuel ("t" ++ String hi (String lo name) ++ s) = Ok (v, s'))
     <-> (exists kvs, v = VMagic name kvs /\ entries s kvs s' /\
                      Forall (fun kv => forall cps, fst kv = VUnicode cps ->
                                                    is_ascii cps = true) kvs)).
Proof.
  intros hi lo name s v s' Hlen Hname.
  assert (Ht : truthy_str name = true)
    by (destruct name; [contradiction|reflexivity]).
  assert (Hst : forall k, storable (Some name) k = true <->
                          (forall cps, k = VUnicode cps -> is_ascii cps = true)).
  { intros k. unfold storable. rewrite Ht. split.
    - intros H cps ->. exact H.
    - intros H. destruct k; try reflexivity. now apply H. }
  split.
  - intros [fuel H]. rewrite _read_map_typed in H by assumption.
    apply bind_Ok in H. destruct H as (code & s1 & Hc & H).
    apply bind_Ok in H. destruct H as (fs & s2 & Hloop & H).
    apply ret_Ok in H. destruct H as [<- <-].
    apply _read_one in Hc. destruct Hc as (c & -> & ->).
    apply map_loop_entries in Hloop. destruct Hloop as (kvs & -> & He & Hall).
    exists kvs. repeat split; try assumption.
    eapply Forall_impl; [|exact Hall]. intros kv. apply Hst.
  - intros (kvs & -> & He & Hall).
    assert (Hall' : Forall (fun kv => storable (Some name) (fst kv) = true) kvs)
      by (eapply Forall_impl; [|exact Hall]; intros kv; apply Hst).
    destruct (entries_map_loop (Some name) _ _ _ He Hall') as [f Hf].
    exists f. rewrite _read_map_typed by assumption.
    destruct s as [|c s]; [destruct (Hf [])|].
    unfold bind. rewrite _read_one_cons, (Hf []). reflexivity.
Qed.

(** The object Foo with the field a = true and a field keyed by a list. *)
Lemma typed_map_witness :
  exists kvs,
    VMagic "Foo" [(VUnicode [97%N], VBool true); (VList [], VNone)] = VMagic "Foo" kvs /\
    entries ("S" ++ bytes [0; 1]%N ++ "a" ++ "T" ++ "V" ++ "z" ++ "N" ++ "z")
            kvs EmptyString /\
    Forall (fun kv => forall cps, fst kv = VUnicode cps -> is_ascii cps = true) kvs.
Proof.
  apply (proj1 (typed_map_is_Magic_of_entries
                  (ascii_of_N 0) (ascii_of_N 3) "Foo"
                  ("S" ++ bytes [0; 1]%N ++ "a" ++ "T" ++ "V" ++ "z" ++ "N" ++ "z")
                  (VMagic "Foo" [(VUnicode [97%N], VBool true); (VList [], VNone)])
                  EmptyString eq_refl ltac:(discriminate))).
  exists 5. reflexivity.
Defined.

(** ** The object behind each tag *)

Lemma be_uint_bound (r : string) :
  forall acc, (be_uint acc r < (acc + 1) * 256 ^ N.of_nat (String.length r))%N.
Proof.
  induction r as [|a r IH]; intros acc; cbn [be_uint String.length].
  - rewrite N.pow_0_r. lia.
  - rewrite Nat2N.inj_succ, N.pow_succ_r'.
    pose proof (N_ascii_bounded a) as Ha.
    eapply N.lt_le_trans; [apply IH|].
    rewrite N.mul_assoc. apply N.mul_le_mono_r. lia.
Qed.

Lemma unpack_l_bound (r : string) (s : stream) (i : Z) (s' : stream) :
  unpack_l r s = Ok (i, s') -> (- 2 ^ 31 <= i < 2 ^ 31)%Z.
Proof.
  unfold unpack_l. destruct (String.length r =? 4)%nat eqn:E; [|discriminate].
  apply Nat.eqb_eq in E. intros H. apply ret_Ok in H. destruct H as [<- _].
  pose proof (be_uint_bound r 0%N) as Hb. rewrite E in Hb.
  change ((0 + 1) * 256 ^ N.of_nat 4)%N with 4294967296%N in Hb.
  unfold to_signed. change (2 ^ (32 - 1))%N with 2147483648%N.
  change (2 ^ Z.of_N 32)%Z with 4294967296%Z.
  destruct (N.ltb_spec (be_uint 0 r) 2147483648); lia.
Qed.

Lemma unpack_q_bound (r : string) (s : stream) (i : Z) (s' : stream) :
  unpack_q r s = Ok (i, s') -> (- 2 ^ 63 <= i < 2 ^ 63)%Z.
Proof.
  unfold unpack_q. destruct (String.length r =? 8)%nat eqn:E; [|discriminate].
  apply Nat.eqb_eq in E. intros H. apply ret_Ok in H. destruct H as [<- _].
  pose proof (be_uint_bound r 0%N) as Hb. rewrite E in Hb.
  change ((0 + 1) * 256 ^ N.of_nat 8)%N with 18446744073709551616%N in Hb.
  unfold to_signed. change (2 ^ (64 - 1))%N with 9223372036854775808%N.
  change (2 ^ Z.of_N 64)%Z with 18446744073709551616%Z.
  destruct (N.ltb_spec (be_uint 0 r) 9223372036854775808); lia.
Qed.

Lemma unpack_d_bound (r : string) (s : stream) (d : N) (s' : stream) :
  unpack_d r s = Ok (d, s') -> (d < 2 ^ 64)%N.
Proof.
  unfold unpack_d. destruct (String.length r =? 8)%nat eqn:E; [|discriminate].
  apply Nat.eqb_eq in E. intros H. apply ret_Ok in H. destruct H as [<- _].
  pose proof (be_uint_bound r 0%N) as Hb. rewrite E in Hb.
  change ((0 + 1) * 256 ^ N.of_nat 8)%N with (2 ^ 64)%N in Hb. exact Hb.
Qed.

Lemma _read_date_range (s : stream) (v : value) (s' : stream) :
  _read_date s = Ok (v, s') ->
  exists secs, v = VDate secs /\ (-62135596800 <= secs <= 253402300799)%Z.
Proof.
  unfold _read_date, fromtimestamp. intros H. inv_run. subst.
  eexists. split; [reflexivity|].
  match goal with
  | E : (_ && _) = true |- _ =>
      apply andb_true_iff in E; destruct E as [E1 E2];
      apply Z.leb_le in E1; apply Z.leb_le in E2; lia
  end.
Qed.

Lemma _read_string_text (s : stream) (v : value) (s' : stream) :
  _read_string s = Ok (v, s') -> exists cps, v = VUnicode cps.
Proof.
  unfold _read_string, decode_utf8. intros H. inv_run. subst. eauto.
Qed.

Lemma py_add_text (a b v : value) (s s' : stream) :
  py_add a b s = Ok (v, s') -> exists cps, v = VUnicode cps.
Proof.
  destruct a, b; try discriminate. cbn. intros H.
  apply ret_Ok in H. destruct H as [<- _]. eauto.
Qed.

Lemma _read_binary_length (s : stream) (v : value) (s' : stream) :
  _read_binary s = Ok (v, s') ->
  exists data, v = VBinary data /\
               (1 <= N.of_nat (String.length data) <= 65535)%N.
Proof.
  unfold _read_binary. intros H. inv_run. subst.
  eexists. split; [reflexivity|].
  match goal with
  | Hu : unpack_H _ _ = Ok (?n, _), Hr : _read (N.to_nat ?n) _ = Ok _ |- _ =>
      apply unpack_H_bound in Hu; apply _read_length in Hr; lia
  end.
Qed.

Ltac split_code H :=
  repeat match type of H with
    | (if (?c =? ?k) || (?c =? ?k2) then _ else _) _ = _ =>
        destruct (String.eqb_spec c k) as [->|?];
        [ cbn [orb String.eqb Ascii.eqb Bool.eqb] in H
        | destruct (String.eqb_spec c k2) as [->|?];
          cbn [orb String.eqb Ascii.eqb Bool.eqb] in H ]
    | (if (?c =? ?k) then _ else _) _ = _ =>
        destruct (String.eqb_spec c k) as [->|?]
    end.

Lemma _read_object_shape (fuel : nat) :
  forall code s v s', _read_object fuel code s = Ok (v, s') -> shape code v.
Proof.
  induction fuel as [|fuel IH]; intros code s v s' H; [discriminate H|].
  cbn [_read_object] in H. split_code H.
  - apply ret_Ok in H. destruct H as [<- _]. constructor.
  - apply ret_Ok in H. destruct H as [<- _]. constructor.
  - apply ret_Ok in H. destruct H as [<- _]. constructor.
  - inv_run. subst. constructor. eapply unpack_l_bound; eassumption.
  - inv_run. subst. constructor. eapply unpack_q_bound; eassumption.
  - inv_run. subst. constructor. eapply unpack_d_bound; eassumption.
  - apply _read_date_range in H. destruct H as (secs & -> & Hr).
    now constructor.
  - inv_run. apply py_add_text in H. destruct H as [cps ->].
    constructor. auto.
  - inv_run. apply py_add_text in H. destruct H as [cps ->].
    constructor. auto.
  - apply _read_string_text in H. destruct H as [cps ->]. constructor. auto.
  - apply _read_string_text in H. destruct H as [cps ->]. constructor. auto.
  - inv_run. subst. constructor.
  - apply _read_binary_length in H. destruct H as (data & -> & Hl).
    now constructor.
  - unfold _read_remote_with in H.
    apply bind_Ok in H. destruct H as (code & s1 & Hc & H).
    apply bind_Ok in H. destruct H as ([type code'] & s2 & Ht & H).
    destruct (negb (code' =? "s") && negb (code' =? "S")) eqn:E;
      [discriminate H|].
    apply bind_Ok in H. destruct H as (url & s3 & Hu & H).
    apply ret_Ok in H. destruct H as [<- _].
    apply IH in Hu.
    assert (Hcode : code' = "s" \/ code' = "S").
    { destruct (String.eqb_spec code' "s"); [now left|].
      destruct (String.eqb_spec code' "S"); [now right|discriminate E]. }
    assert (Hurl : exists cps, url = VUnicode cps).
    { destruct Hcode as [-> | ->]; inversion Hu; eauto. }
    destruct Hurl as [cps ->]. constructor.
    intros t ->. inv_run; try discriminate.
    match goal with
    | Hp : (_, _) = (Some t, _) |- _ => injection Hp as -> _
    end.
    match goal with
    | Hr : _read _ _ = Ok (t, _) |- _ =>
        apply _read_Ok in Hr; destruct Hr as (_ & _ & Hne); exact Hne
    end.
  - discriminate H.
  - unfold _read_list_with in H. inv_run; subst;
      match goal with
      | Hp : (_, _) = (_, _) |- _ => injection Hp as <- <-
      end; constructor.
  - unfold _read_map_with in H. inv_run; subst; try constructor;
      try match goal with
          | Hp : (None, _) = (Some _, _) |- _ => discriminate Hp
          end;
      intros ->; discriminate.
  - discriminate H.
Qed.

(** X15. The tag fixes the kind of object the value decoder returns and its
    bounds: 'I' a 32-bit and 'L' a 64-bit signed integer, 'd' a date within
    the years 1 to 9999, 'S', 'X', 's' and 'x' a text, 'B' a binary of 1 to
    65535 bytes, 'b' nothing but [None], 'r' a remote whose url is a text and
    whose type, if any, is not empty, 'V' a list or a tuple, 'M' a dict or a
    [Magic] object with a non-empty type name. *)
Theorem value_decoder_result_shape (fuel : nat) (code : string) (s : stream)
    (v : value) (s' : stream) :
  _read_object fuel code s = Ok (v, s') -> shape code v.
Proof. apply _read_object_shape. Qed.

(** The int -1. *)
Lemma value_decoder_result_shape_witness : shape "I" (VInt (-1)).
Proof.
  apply (value_decoder_result_shape
           1 "I" (bytes [255; 255; 255; 255]%N) (VInt (-1)) EmptyString).
  reflexivity.
Defined.

(** ** Strings and binaries of a given content *)

Lemma unpack_pack_H (n : nat) (s : stream) :
  (N.of_nat n < 65536)%N -> unpack_H (pack_H n) s = Ok (N.of_nat n, s).
Proof.
  intros Hn. unfold unpack_H, pack_H. cbn [bytes String.length Nat.eqb be_uint].
  unfold ret. f_equal. f_equal.
  assert (Hd : (N.of_nat n / 256 < 256)%N)
    by (apply N.Div0.div_lt_upper_bound; lia).
  assert (Hm : (N.of_nat n mod 256 < 256)%N) by (apply N.mod_lt; lia).
  rewrite !N_ascii_embedding by assumption.
  pose proof (N.div_mod (N.of_nat n) 256 ltac:(lia)). lia.
Qed.

Lemma _read_pack_H (n : nat) (s : stream) :
  _read 2 (pack_H n ++ s) = Ok (pack_H n, s).
Proof. reflexivity. Qed.

Lemma append_nil_r (s : string) : s ++ EmptyString = s.
Proof. induction s as [|c s IH]; simpl; [reflexivity|now rewrite IH]. Qed.

Lemma concat_cons (x : string) (l : list string) :
  String.concat EmptyString (x :: l) = x ++ String.concat EmptyString l.
Proof.
  destruct l as [|y l]; cbn [String.concat].
  - now rewrite append_nil_r.
  - reflexivity.
Qed.

Lemma concat_singles (t : string) :
  String.concat EmptyString
    (map (fun c => String c EmptyString) (list_ascii_of_string t)) = t.
Proof.
  induction t as [|c t IH]; [reflexivity|].
  cbn [list_ascii_of_string map]. rewrite concat_cons, IH. reflexivity.
Qed.

Lemma string_loop_plain (t : string) :
  forall acc rest,
    plain_ascii t = true ->
    string_loop (String.length t) acc (t ++ rest)
    = Ok ((acc ++ map (fun c => String c EmptyString) (list_ascii_of_string t))%list,
          rest).
Proof.
  induction t as [|c t IH]; intros acc rest Hp.
  - cbn. now rewrite app_nil_r.
  - cbn [plain_ascii] in Hp. apply andb_true_iff in Hp. destruct Hp as [Hc Ht].
    cbn [String.length append]. rewrite string_loop_ascii by exact Hc.
    rewrite IH by exact Ht. cbn [list_ascii_of_string map].
    now rewrite <- app_assoc.
Qed.

Lemma utf8_decode_plain (t : string) :
  plain_ascii t = true -> utf8_decode (ords t) = Some (ords t).
Proof.
  induction t as [|c t IH]; [reflexivity|].
  cbn [plain_ascii ords utf8_decode]. intros Hp.
  apply andb_true_iff in Hp. destruct Hp as [Hc Ht].
  unfold in_range in Hc. apply andb_true_iff in Hc. destruct Hc as [_ Hc].
  apply N.ltb_lt in Hc.
  destruct (N.ltb_spec (N_of_ascii c) 128); [|lia].
  now rewrite IH.
Qed.

Lemma _read_string_plain (t rest : string) :
  plain_ascii t = true ->
  (N.of_nat (String.length t) < 65536)%N ->
  _read_string (pack_H (String.length t) ++ t ++ rest)
  = Ok (VUnicode (ords t), rest).
Proof.
  intros Hp Hn. unfold _read_string.
  erewrite bind_run by apply _read_pack_H.
  erewrite bind_run by (apply unpack_pack_H; exact Hn).
  rewrite Nat2N.id.
  erewrite bind_run by (apply string_loop_plain; exact Hp).
  cbn [app]. rewrite concat_singles. unfold decode_utf8.
  now rewrite utf8_decode_plain.
Qed.

Lemma plain_string_decodes_chunk (fuel : nat) (code t rest : string) :
  code = "S" \/ code = "X" ->
  plain_ascii t = true ->
  (N.of_nat (String.length t) < 65536)%N ->
  _read_object (S fuel) code (pack_H (String.length t) ++ t ++ rest)
  = Ok (VUnicode (ords t), rest).
Proof.
  intros [-> | ->] Hp Hn; dispatch; now apply _read_string_plain.
Qed.

(** X16. A string whose bytes are all below 0x7F, sent with its length as
    character count, decodes to the text of exactly these characters and
    leaves what follows it in the stream; this holds for the empty string
    too. *)
Theorem plain_string_decodes_to_its_text (fuel : nat) (code t rest : string) :
  code = "S" \/ code = "X" ->
  plain_ascii t = true ->
  (N.of_nat (String.length t) < 65536)%N ->
  _read_object (S fuel) code (pack_H (String.length t) ++ t ++ rest)
  = Ok (VUnicode (ords t), rest).
Proof. apply plain_string_decodes_chunk. Qed.

(** The string "hello" followed by a terminator. *)
Lemma plain_string_decodes_witness :
  _read_object 1 "S" (pack_H 5 ++ "hello" ++ "z")
  = Ok (VUnicode [104; 101; 108; 108; 111]%N, "z").
Proof.
  apply (plain_string_decodes_to_its_text 0 "S" "hello" "z").
  - now left.
  - reflexivity.
  - reflexivity.
Defined.

Lemma string_chunk_continues (fuel : nat) (code : string) (s s1 s2 s3 : stream)
    (a b : list N) (next : string) :
  code = "s" \/ code = "x" ->
  _read_string s = Ok (VUnicode a, s1) ->
  _read 1 s1 = Ok (next, s2) ->
  lower next = code ->
  _read_object fuel next s2 = Ok (VUnicode b, s3) ->
  _read_object (S fuel) code s = Ok (VUnicode (a ++ b)%list, s3).
Proof.
  intros Hc Hf Hn Hl Hr. apply String.eqb_eq in Hl.
  destruct Hc as [-> | ->]; dispatch;
    erewrite bind_run by exact Hf; erewrite bind_run by exact Hn;
    rewrite Hl; erewrite bind_run by exact Hr; reflexivity.
Qed.

(** X17. A string sent as a non-terminal chunk ('s' or 'x') followed by a
    terminal chunk of the same kind ('S' or 'X') decodes to the
    concatenation of the two texts. *)
Theorem chunked_string_is_concatenated (fuel : nat) (t1 t2 rest : string) :
  plain_ascii t1 = true -> plain_ascii t2 = true ->
  (N.of_nat (String.length t1) < 65536)%N ->
  (N.of_nat (String.length t2) < 65536)%N ->
  _read_object (S (S fuel)) "s"
    (pack_H (String.length t1) ++ t1 ++ "S" ++ pack_H (String.length t2) ++ t2 ++ rest)
  = Ok (VUnicode (ords t1 ++ ords t2), rest)
  /\
  _read_object (S (S fuel)) "x"
    (pack_H (String.length t1) ++ t1 ++ "X" ++ pack_H (String.length t2) ++ t2 ++ rest)
  = Ok (VUnicode (ords t1 ++ ords t2), rest).
Proof.
  intros Hp1 Hp2 Hn1 Hn2. split.
  - eapply string_chunk_continues with (next := "S").
    + now left.
    + apply _read_string_plain; assumption.
    + apply _read_one_cons.
    + reflexivity.
    + apply (plain_string_decodes_chunk fuel "S"); auto.
  - eapply string_chunk_continues with (next := "X").
    + now right.
    + apply _read_string_plain; assumption.
    + apply _read_one_cons.
    + reflexivity.
    + apply (plain_string_decodes_chunk fuel "X"); auto.
Qed.

(** "ab" sent as the chunks "a" and "b". *)
Lemma chunked_string_witness :
  _read_object 2 "s" (pack_H 1 ++ "a" ++ "S" ++ pack_H 1 ++ "b" ++ "z")
  = Ok (VUnicode [97; 98]%N, "z").
Proof.
  apply (proj1 (chunked_string_is_concatenated 0 "a" "b" "z"
                  eq_refl eq_refl eq_refl eq_refl)).
Defined.

(** X18. A binary of 1 to 65535 bytes sent as a single terminal chunk 'B'
    with its length decodes to a [Binary] holding exactly these bytes and
    leaves what follows it in the stream. *)
Theorem binary_decodes_to_its_bytes (fuel : nat) (data rest : string) :
  data <> EmptyString ->
  (N.of_nat (String.length data) < 65536)%N ->
  _read_object (S fuel) "B" (pack_H (String.length data) ++ data ++ rest)
  = Ok (VBinary data, rest).
Proof.
  intros Hd Hn. dispatch. unfold _read_binary.
  erewrite bind_run by apply _read_pack_H.
  erewrite bind_run by (apply unpack_pack_H; exact Hn).
  rewrite Nat2N.id.
  erewrite bind_run by (apply _read_app; exact Hd).
  reflexivity.
Qed.

(** Three bytes. *)
Lemma binary_decodes_witness :
  _read_object 1 "B" (pack_H 3 ++ bytes [0; 255; 7]%N ++ "z")
  = Ok (VBinary (bytes [0; 255; 7]%N), "z").
Proof.
  apply (binary_decodes_to_its_bytes 0 (bytes [0; 255; 7]%N) "z").
  - discriminate.
  - reflexivity.
Defined.

(** ** Bytes behind a message *)

Lemma framed_ret {A} (a : A) : framed (ret a).
Proof.
  intros s b s' H. apply ret_Ok in H. destruct H as [<- <-].
  split; [apply suffix_refl|reflexivity].
Qed.

Lemma framed_raise {A} (e : exn) : framed (@raise A e).
Proof. intros s a s' H. discriminate H. Qed.

Lemma framed_out {A} : framed (@out_of_fuel A).
Proof. intros s a s' H. discriminate H. Qed.

Lemma suffix_nonempty (s' s : stream) :
  suffix s' s -> s' <> EmptyString -> s <> EmptyString.
Proof.
  intros [p ->] H E. apply H.
  destruct p; [exact E|discriminate E].
Qed.

Lemma framed_bind {A B} (m : M A) (k : A -> M B) :
  framed m -> (forall a, framed (k a)) -> framed (bind m k).
Proof.
  intros Hm Hk s b s2 H.
  apply bind_Ok in H. destruct H as (a & s1 & H1 & H2).
  destruct (Hm _ _ _ H1) as [Hs1 Hf1].
  destruct (Hk a _ _ _ H2) as [Hs2 Hf2].
  split; [eapply suffix_trans; eassumption|].
  intros Hne t. unfold bind.
  rewrite (Hf1 (suffix_nonempty _ _ Hs2 Hne) t). now apply Hf2.
Qed.

Lemma take_app_long (n : nat) (s t : string) :
  n < String.length s -> take n (s ++ t) = take n s /\ drop n (s ++ t) = drop n s ++ t.
Proof.
  revert s; induction n as [|n IH]; intros [|c s] Hn; simpl in *; try lia; auto.
  destruct (IH s ltac:(lia)) as [-> ->]. auto.
Qed.

Lemma framed_read (n : nat) : framed (_read n).
Proof.
  intros s r s' H. split; [exists r; now apply (_read_split n)|].
  intros Hne t. apply _read_Ok in H. destruct H as (-> & -> & Hr).
  assert (Hn : n < String.length s).
  { destruct (Nat.lt_ge_cases n (String.length s)) as [|Hge]; [assumption|].
    exfalso. apply Hne.
    assert (Hl : String.length (drop n s) = 0) by (rewrite length_drop; lia).
    destruct (drop n s); [reflexivity|discriminate Hl]. }
  destruct (take_app_long n s t Hn) as [Ht Hd].
  apply _read_Ok. rewrite Ht, Hd. auto.
Qed.

Ltac frame :=
  repeat first
    [ apply framed_ret
    | apply framed_raise
    | apply framed_out
    | apply framed_read
    | apply framed_bind
    | match goal with
      | |- forall _, _ => intro
      | |- framed (if ?b then _ else _) => destruct b
      | |- framed (match ?x with _ => _ end) => destruct x
      | H : _ |- framed _ => apply H
      end ].

Lemma framed_unpack_H r : framed (unpack_H r).
Proof. unfold unpack_H. frame. Qed.

Lemma framed_unpack_l r : framed (unpack_l r).
Proof. unfold unpack_l. frame. Qed.

Lemma framed_unpack_q r : framed (unpack_q r).
Proof. unfold unpack_q. frame. Qed.

Lemma framed_unpack_d r : framed (unpack_d r).
Proof. unfold unpack_d. frame. Qed.

Lemma framed_ord b : framed (ord b).
Proof. unfold ord. frame. Qed.

Lemma framed_fromtimestamp t : framed (fromtimestamp t).
Proof. unfold fromtimestamp. frame. Qed.

Lemma framed_decode_utf8 r : framed (decode_utf8 r).
Proof. unfold decode_utf8. frame. Qed.

Lemma framed_py_add a b : framed (py_add a b).
Proof. unfold py_add. frame. Qed.

Lemma framed_dict_set d k v : framed (dict_set d k v).
Proof. unfold dict_set. frame. Qed.

Lemma framed_py_str k : framed (py_str k).
Proof. unfold py_str. frame. Qed.

Lemma framed_py_setattr a k v : framed (py_setattr a k v).
Proof. unfold py_setattr. frame. Qed.

Lemma framed_map_store c f k v : framed (map_store c f k v).
Proof.
  unfold map_store.
  destruct (match c with Some _ => _ | None => _ end);
    [apply framed_bind; [apply framed_py_str|intros; apply framed_ret]
    |apply framed_dict_set].
Qed.

Create HintDb framed discriminated.
#[local] Hint Resolve framed_unpack_H framed_unpack_l framed_unpack_q
  framed_unpack_d framed_ord framed_fromtimestamp framed_decode_utf8
  framed_py_add framed_dict_set framed_py_str framed_py_setattr
  framed_map_store : framed.

Ltac frames := repeat first [ solve [auto with framed] | progress frame ].

Lemma framed_string_loop (len : nat) : forall acc, framed (string_loop len acc).
Proof.
  induction len as [|len IH]; intros acc; cbn [string_loop]; frames.
Qed.
#[local] Hint Resolve framed_string_loop : framed.

Lemma framed__read_string : framed _read_string.
Proof. unfold _read_string. frames. Qed.

Lemma framed__read_binary : framed _read_binary.
Proof. unfold _read_binary. frames. Qed.

Lemma framed__read_date : framed _read_date.
Proof. unfold _read_date. frames. Qed.

#[local] Hint Resolve framed__read_string framed__read_binary framed__read_date
  : framed.

Lemma framed_decoders (f : nat) :
  (forall code, framed (_read_object f code)) /\
  (forall code ms, framed (list_loop f code ms)) /\
  (forall cast code fs, framed (map_loop f cast code fs)).
Proof.
  induction f as [|f (IHo & IHl & IHm)].
  - split; [|split]; intros; apply framed_out.
  - split; [|split]; intros; cbn [_read_object list_loop map_loop];
      unfold _read_remote_with, _read_list_with, _read_map_with,
        _read_keyval_with;
      frames.
Qed.

Lemma framed__read_object (f : nat) (code : string) : framed (_read_object f code).
Proof. apply framed_decoders. Qed.
#[local] Hint Resolve framed__read_object : framed.

Lemma framed__read_fault (f : nat) : framed (_read_fault f).
Proof. unfold _read_fault, _read_keyval, _read_keyval_with. frames. Qed.
#[local] Hint Resolve framed__read_fault : framed.

Lemma framed_loop_body (f : nat) (r : option envelope) : framed (loop_body f r).
Proof. unfold loop_body, _read_keyval, _read_keyval_with. frames. Qed.

(** X19. As long as the value decoder leaves at least one byte unread, bytes
    added behind the stream change neither the value it returns nor the bytes
    it reads.  (When it consumes the whole stream a read may have been cut
    short, and more bytes can then change the value.) *)
Theorem value_decoder_ignores_what_follows (fuel : nat) (code : string)
    (s : stream) (v : value) (s' : stream) :
  _read_object fuel code s = Ok (v, s') ->
  s' <> EmptyString ->
  forall t, _read_object fuel code (s ++ t) = Ok (v, s' ++ t).
Proof.
  intros H Hne. exact (proj2 (framed__read_object fuel code s v s' H) Hne).
Qed.

(** A binary of two bytes followed by 'z', then by more. *)
Lemma value_decoder_ignores_what_follows_witness :
  _read_object 1 "B" ((bytes [0; 2]%N ++ "ab" ++ "z") ++ "more")
  = Ok (VBinary "ab", "z" ++ "more").
Proof.
  apply (value_decoder_ignores_what_follows
           1 "B" (bytes [0; 2]%N ++ "ab" ++ "z") (VBinary "ab") "z").
  - reflexivity.
  - discriminate.
Defined.

Lemma parse_loop_framed (f : nat) :
  forall r s r' s' t,
    parse_loop f r s = Ok (r', s') ->
    parse_loop f r (s ++ t) = Ok (r', s' ++ t).
Proof.
  induction f as [|f IH]; intros r s r' s' t H; [discriminate H|].
  pose proof H as H0. cbn [parse_loop] in H.
  apply bind_Ok in H. destruct H as (fl & s1 & Hb & H).
  destruct fl as [r1|].
  - assert (Hne : s1 <> EmptyString).
    { apply parse_loop_stops_at_z in H. destruct H as [Hs _].
      eapply suffix_nonempty; [exact Hs|discriminate]. }
    rewrite (parse_loop_step _ _ r1 _ (s1 ++ t)).
    + now apply IH.
    + exact (proj2 (framed_loop_body f r s _ s1 Hb) Hne t).
  - apply ret_Ok in H. destruct H as [<- <-].
    apply loop_body_Break in Hb. destruct Hb as [-> Hr].
    destruct r as [env|]; [|contradiction].
    cbn [parse_loop append]. unfold bind. now rewrite loop_body_z.
Qed.

(** X20. The result of [parse_stream] does not depend on what follows the
    message: with any bytes added behind the input it returns the same
    envelope and leaves these bytes unread as well. *)
Theorem parse_stream_ignores_what_follows (s : stream) (r : option envelope)
    (s' : stream) :
  parse_stream s = Ok (r, s') ->
  forall t, parse_stream (s ++ t) = Ok (r, s' ++ t).
Proof.
  unfold parse_stream at 1. intros H t.
  apply (parse_stream_fuel (2 * String.length s + 1)); [|discriminate].
  now apply parse_loop_framed.
Qed.

(** The call ping(), followed by the header of a second message. *)
Lemma parse_stream_ignores_what_follows_witness :
  parse_stream (("c" ++ version_1_0 ++ "m" ++ bytes [0; 4]%N ++ "ping" ++ "z")
                  ++ "c" ++ version_1_0)
  = Ok (Some (Call [] (Some "ping") []), EmptyString ++ "c" ++ version_1_0).
Proof.
  apply (parse_stream_ignores_what_follows
           ("c" ++ version_1_0 ++ "m" ++ bytes [0; 4]%N ++ "ping" ++ "z")
           (Some (Call [] (Some "ping") [])) EmptyString).
  reflexivity.
Defined.

(** ** Faults *)




(** ** Tags that are refused *)

(** X22. Once the value of a reply is true in a condition, any further tag
    of the message other than a header 'H' and the terminator fails the whole
    parse with 'illegal extra object within reply' (a header tag 'c' or 'r'
    and the tag 'm' fail with their own errors). *)
Theorem truthy_reply_value_is_final (s : stream) (hs : list (value * value))
    (val : value) (c : ascii) (s1 : stream) :
  iterations None s (Some (Reply hs val)) (String c s1) ->
  truthy val = true ->
  c <> "c"%char -> c <> "r"%char -> c <> "H"%char -> c <> "m"%char ->
  c <> "z"%char ->
  parse_string s = Raise (ParseError IllegalExtraValue).
Proof.
  intros Hit Ht Hc Hr HH Hm Hz.
  destruct (iterations_parse_loop _ _ _ _ Hit 1
              (Raise (ParseError IllegalExtraValue))) as [F HF].
  - apply parse_loop_raise. unfold loop_body.
    erewrite bind_run by apply _read_one_cons.
    rewrite (one_eqb_false _ _ Hc), (one_eqb_false _ _ Hr),
      (one_eqb_false _ _ HH), (one_eqb_false _ _ Hm), (one_eqb_false _ _ Hz), Ht.
    destruct (String c EmptyString =? "f"); reflexivity.
  - discriminate.
  - now apply (parse_string_fuel_raise F).
Qed.

(** A reply with the value 7, then a fault tag. *)
Lemma truthy_reply_value_is_final_witness :
  parse_string ("r" ++ version_1_0 ++ "I" ++ bytes [0; 0; 0; 7]%N ++ "f" ++ "z")
  = Raise (ParseError IllegalExtraValue).
Proof.
  apply (truthy_reply_value_is_final
           ("r" ++ version_1_0 ++ "I" ++ bytes [0; 0; 0; 7]%N ++ "f" ++ "z")
           [] (VInt 7) "f" "z").
  - apply (iterations_more 0 _ _ (Some new_Reply)
             ("I" ++ bytes [0; 0; 0; 7]%N ++ "f" ++ "z")); [reflexivity|].
    apply (iterations_more 1 _ _ (Some (Reply [] (VInt 7))) ("f" ++ "z"));
      [reflexivity|].
    apply iterations_none.
  - reflexivity.
  - discriminate.
  - discriminate.
  - discriminate.
  - discriminate.
  - discriminate.
Defined.

(** X23. A method name is legal in a call only and a fault in a reply only:
    the tag 'm' met while the envelope is a reply fails the parse with
    'illegal method name within reply', the tag 'f' met while it is a call
    with 'illegal fault within call', before anything behind the tag is
    read. *)
Theorem method_and_fault_need_their_envelope (s : stream) (env : envelope)
    (c : ascii) (s1 : stream) (e : parse_error) :
  iterations None s (Some env) (String c s1) ->
  (c = "m"%char /\ is_reply (Some env) = true /\ e = IllegalMethodOutsideCall) \/
  (c = "f"%char /\ is_call (Some env) = true /\ e = IllegalFaultOutsideReply) ->
  parse_string s = Raise (ParseError e).
Proof.
  intros Hit Hc.
  destruct (iterations_parse_loop _ _ _ _ Hit 1 (Raise (ParseError e)))
    as [F HF].
  - apply parse_loop_raise.
    destruct Hc as [(-> & Hk & ->)|(-> & Hk & ->)];
      destruct env; try discriminate Hk; reflexivity.
  - discriminate.
  - now apply (parse_string_fuel_raise F).
Qed.

(** A reply that names a method. *)
Lemma method_and_fault_need_their_envelope_witness :
  parse_string ("r" ++ version_1_0 ++ "m" ++ bytes [0; 1]%N ++ "f" ++ "z")
  = Raise (ParseError IllegalMethodOutsideCall).
Proof.
  apply (method_and_fault_need_their_envelope
           ("r" ++ version_1_0 ++ "m" ++ bytes [0; 1]%N ++ "f" ++ "z")
           new_Reply "m" (bytes [0; 1]%N ++ "f" ++ "z")
           IllegalMethodOutsideCall).
  - apply (iterations_more 0 _ _ (Some new_Reply)
             ("m" ++ bytes [0; 1]%N ++ "f" ++ "z")); [reflexivity|].
    apply iterations_none.
  - left. repeat split.
Defined.

(** X24. A non-terminal string chunk must be followed by a chunk of its own
    kind: after the text of an 's' chunk any tag other than 's' and 'S', and
    after an 'x' chunk any tag other than 'x' and 'X', fails with 'expected
    terminal string segment'. *)
Theorem string_chunk_needs_its_own_kind (fuel : nat) (code t : string)
    (c : ascii) (rest : string) :
  code = "s" \/ code = "x" ->
  plain_ascii t = true ->
  (N.of_nat (String.length t) < 65536)%N ->
  String (lower_char c) EmptyString <> code ->
  _read_object (S fuel) code (pack_H (String.length t) ++ t ++ String c rest)
  = Raise (ParseError ExpectedTerminalChunk).
Proof.
  intros Hc Hp Hn Hl.
  apply (string_chunk_mismatch_raises fuel code _ (String c rest) rest
           (VUnicode (ords t)) (String c EmptyString));
    [ exact Hc
    | now apply _read_string_plain
    | apply _read_one_cons
    | exact Hl ].
Qed.

(** An 's' chunk followed by an 'X' chunk. *)
Lemma string_chunk_needs_its_own_kind_witness :
  _read_object 1 "s" (pack_H 1 ++ "a" ++ String "X" (pack_H 1 ++ "b"))
  = Raise (ParseError ExpectedTerminalChunk).
Proof.
  apply (string_chunk_needs_its_own_kind 0 "s" "a" "X" (pack_H 1 ++ "b")).
  - now left.
  - reflexivity.
  - reflexivity.
  - discriminate.
Defined.

(** ** Dates and remotes *)

(** X25. A date within the years 1 to 9999 decodes to the whole second at or
    below its millisecond count (floor division by 1000, also for dates
    before the epoch), so the decoded instant lies less than one second
    before the one that was sent. *)
Theorem date_is_floor_of_its_milliseconds (fuel : nat) (payload rest : string) :
  String.length payload = 8 ->
  (-62135596800 <= to_signed 64 (be_uint 0 payload) / 1000 <= 253402300799)%Z ->
  _read_object (S fuel) "d" (payload ++ rest)
  = Ok (VDate (to_signed 64 (be_uint 0 payload) / 1000), rest)
  /\ (to_signed 64 (be_uint 0 payload) - 999
      <= to_signed 64 (be_uint 0 payload) / 1000 * 1000
      <= to_signed 64 (be_uint 0 payload))%Z.
Proof.
  intros Hlen Hr. split.
  - dispatch. unfold _read_date.
    erewrite bind_run
      by (rewrite <- Hlen; apply _read_app; intros ->; discriminate Hlen).
    unfold unpack_q. rewrite Hlen. cbn [Nat.eqb].
    erewrite bind_run by reflexivity.
    unfold fromtimestamp.
    destruct Hr as [H1 H2]. apply Z.leb_le in H1. apply Z.leb_le in H2.
    now rewrite H1, H2.
  - pose proof (Z.div_mod (to_signed 64 (be_uint 0 payload)) 1000 ltac:(lia)).
    pose proof (Z.mod_pos_bound (to_signed 64 (be_uint 0 payload)) 1000
                  ltac:(lia)).
    lia.
Qed.

(** One and a half seconds before the epoch. *)
Lemma date_is_floor_witness :
  _read_object 1 "d" (bytes [255; 255; 255; 255; 255; 255; 250; 36]%N ++ "z")
  = Ok (VDate (-2), "z").
Proof.
  apply (proj1 (date_is_floor_of_its_milliseconds
                  0 (bytes [255; 255; 255; 255; 255; 255; 250; 36]%N) "z"
                  eq_refl ltac:(vm_compute; split; discriminate))).
Defined.

(** X26. A remote reference is an optional type name followed by its url as
    a string: with a url of plain characters sent as 'S' it decodes to a
    [Remote] with that url and no type, or with the type name that precedes
    it; any tag but 's' and 'S' in the place of the url fails with 'expected
    string object'. *)
Theorem remote_is_type_and_url (fuel : nat) (ty url rest : string)
    (c : ascii) :
  plain_ascii url = true ->
  (N.of_nat (String.length url) < 65536)%N ->
  ty <> EmptyString ->
  (N.of_nat (String.length ty) < 65536)%N ->
  c <> "s"%char -> c <> "S"%char ->
  _read_object (S (S fuel)) "r"
    ("S" ++ pack_H (String.length url) ++ url ++ rest)
  = Ok (VRemote None (VUnicode (ords url)), rest)
  /\ _read_object (S (S fuel)) "r"
       ("t" ++ pack_H (String.length ty) ++ ty
            ++ "S" ++ pack_H (String.length url) ++ url ++ rest)
     = Ok (VRemote (Some ty) (VUnicode (ords url)), rest)
  /\ (c <> "t"%char ->
      _read_object (S (S fuel)) "r" (String c rest)
      = Raise (ParseError ExpectedString))
  /\ _read_object (S (S fuel)) "r"
       ("t" ++ pack_H (String.length ty) ++ ty ++ String c rest)
     = Raise (ParseError ExpectedString).
Proof.
  intros Hp Hn Hty Hnt Hs HS.
  assert (Hurl : forall r, _read_object (S fuel) "S"
                     (pack_H (String.length url) ++ url ++ r)
                   = Ok (VUnicode (ords url), r))
    by (intros r; apply plain_string_decodes_chunk; auto).
  assert (Htype : forall r,
             (r0 <- _read 2 ;; n <- unpack_H r0 ;;
              t <- _read (N.to_nat n) ;; code <- _read 1 ;;
              ret (Some t, code))
               (pack_H (String.length ty) ++ ty ++ String c r)
             = Ok ((Some ty, String c EmptyString), r)).
  { intros r. erewrite bind_run by apply _read_pack_H.
    erewrite bind_run by (apply unpack_pack_H; exact Hnt).
    rewrite Nat2N.id.
    erewrite bind_run by (apply _read_app; exact Hty).
    erewrite bind_run by apply _read_one_cons. reflexivity. }
  assert (HtypeS : forall r,
             (r0 <- _read 2 ;; n <- unpack_H r0 ;;
              t <- _read (N.to_nat n) ;; code <- _read 1 ;;
              ret (Some t, code))
               (pack_H (String.length ty) ++ ty ++ String "S" r)
             = Ok ((Some ty, "S"), r)).
  { intros r. erewrite bind_run by apply _read_pack_H.
    erewrite bind_run by (apply unpack_pack_H; exact Hnt).
    rewrite Nat2N.id.
    erewrite bind_run by (apply _read_app; exact Hty).
    erewrite bind_run by apply _read_one_cons. reflexivity. }
  repeat split.
  - cbn [_read_object String.eqb Ascii.eqb Bool.eqb orb]. unfold _read_remote_with.
    cbn [append]. erewrite bind_run by apply _read_one_cons.
    cbn [String.eqb Ascii.eqb Bool.eqb].
    erewrite bind_run by reflexivity.
    cbn [String.eqb Ascii.eqb Bool.eqb negb andb].
    erewrite bind_run by apply Hurl. reflexivity.
  - cbn [_read_object String.eqb Ascii.eqb Bool.eqb orb]. unfold _read_remote_with.
    cbn [append]. erewrite bind_run by apply _read_one_cons.
    cbn [String.eqb Ascii.eqb Bool.eqb].
    erewrite bind_run by apply HtypeS.
    cbn [String.eqb Ascii.eqb Bool.eqb negb andb].
    erewrite bind_run by apply Hurl. reflexivity.
  - intros Ht.
    cbn [_read_object String.eqb Ascii.eqb Bool.eqb orb]. unfold _read_remote_with.
    erewrite bind_run by apply _read_one_cons.
    rewrite (one_eqb_false _ _ Ht).
    erewrite bind_run by reflexivity. cbv beta iota.
    now rewrite (one_eqb_false _ _ Hs), (one_eqb_false _ _ HS).
  - cbn [_read_object String.eqb Ascii.eqb Bool.eqb orb]. unfold _read_remote_with.
    cbn [append]. erewrite bind_run by apply _read_one_cons.
    cbn [String.eqb Ascii.eqb Bool.eqb].
    erewrite bind_run by apply Htype. cbv beta iota.
    now rewrite (one_eqb_false _ _ Hs), (one_eqb_false _ _ HS).
Qed.

(** The remote of type "T" at the url "u". *)
Lemma remote_is_type_and_url_witness :
  _read_object 2 "r" ("t" ++ pack_H 1 ++ "T" ++ "S" ++ pack_H 1 ++ "u" ++ "z")
  = Ok (VRemote (Some "T") (VUnicode [117%N]), "z").
Proof.
  apply (proj1 (proj2 (remote_is_type_and_url 0 "T" "u" "z" "N"
                         eq_refl eq_refl ltac:(discriminate) eq_refl
                         ltac:(discriminate) ltac:(discriminate)))).
Defined.
